(** * NativeInputEventReceiver: a shallow embedding and its properties

    The development follows [core/jni/android_view_InputEventReceiver.cpp].
    The receiver object and the collaborators it talks to (the input channel
    behind [mInputConsumer], the [Looper] of [mMessageQueue], the Java
    receiver reached through JNI) are gathered in one [State]; every member
    function of the C++ class becomes a computation in a small state monad
    over it.  The collaborators are scripted: the transport by the answers
    it is going to give to [consume] and by the status it gives to each
    [sendFinishedSignal], the Java side by what each callback does.
    Everything the receiver does to a collaborator is appended to [trace],
    so that statements about what was sent, and in which order, are
    statements about that list.

    The file has three parts: the embedding of the code, the vocabulary of
    the statements (readings of the trace, runs of operations, invariants,
    concrete scenarios), and the properties. *)

From stdpp Require Import base list.
From Stdlib Require Import ZArith Lia.
Local Open Scope Z_scope.

(** ** Platform constants *)

(** Modelled from the spec: the status taxonomy (success, WouldBlock, hard
    errors) of [utils/Errors.h], which is not among the sources.  The values
    are those of the platform header: [OK] is zero and the others are negated
    errno codes ([EAGAIN], [ENOMEM], [EPIPE]).  The code relies on [OK] being
    zero ([if (status)]) and on the four being distinct. *)
Module Errors.
Definition status_t := Z.
Definition OK : status_t := 0.
Definition WOULD_BLOCK : status_t := -11.
Definition NO_MEMORY : status_t := -12.
Definition DEAD_OBJECT : status_t := -32.
End Errors.
Export Errors.

(** Modelled from the spec: the readiness bits of [android/looper.h], which is
    not among the sources (read-readiness, write-readiness, error, hangup). *)
Definition ALOOPER_EVENT_INPUT : Z := 1.
Definition ALOOPER_EVENT_OUTPUT : Z := 2.
Definition ALOOPER_EVENT_ERROR : Z := 4.
Definition ALOOPER_EVENT_HANGUP : Z := 8.

(** Modelled from the spec: [AMOTION_EVENT_ACTION_MOVE] of [android/input.h],
    which is not among the sources. *)
Definition AMOTION_EVENT_ACTION_MOVE : Z := 2.

(** ** Data *)

(** [struct Finish]. *)
Record Finish := mkFinish { seq : Z; handled : bool }.

(** The event handed out by [InputConsumer::consume], as the [switch] over
    [getType()] sees it: key, motion (with its action word), focus, or a type
    the switch does not know ([default:]). *)
Inductive InputEvent :=
| KeyEvent
| MotionEvent (action : Z)
| FocusEvent (hasFocus inTouchMode : bool)
| OtherEvent (type : Z).

(** The three out-parameters [motionEventType], [touchMoveNum] and [flag] of
    [consume], together with what [hasPendingBatch()] and
    [getPendingBatchSource()] answer once the call has returned. *)
Record ConsumeOut := mkOut {
  motionEventType : Z;
  touchMoveNum : Z;
  flag : bool;
  hasPendingBatch : bool;
  getPendingBatchSource : Z }.

(** One answer of [mInputConsumer.consume]: either status [OK] with a
    sequence number and an event ([assert(inputEvent)]), or another status.
    The transport never answers [OK] without an event; were [Failed OK] fed
    to the loop, the model would return it like any other status. *)
Inductive ConsumeResult :=
| Consumed (sq : Z) (ev : InputEvent) (out : ConsumeOut)
| Failed (status : status_t) (out : ConsumeOut).

(** Modelled from the spec: the Channel Endpoint behind [mInputConsumer]
    ([InputConsumer] of [input/InputTransport.h], which is not among the
    sources), by its contract [getFd], [consume], [hasPendingBatch],
    [getPendingBatchSource], [sendFinishedSignal].  [inbound] lists what the
    coming calls of [consume] answer; once it is used up [consume] answers
    [WOULD_BLOCK] and leaves the out-parameters alone.  [sendResult n] is the
    status of the [n]-th call of [sendFinishedSignal]: success, WouldBlock,
    or a hard error. *)
Record InputConsumer := mkConsumer {
  getFd : Z;
  inbound : list ConsumeResult;
  pendingBatch : bool;
  pendingBatchSource : Z;
  sendResult : nat -> status_t;
  sendCount : nat }.

(** What the Java side does when [dispatchInputEvent(seq, event)] is called:
    it may call [finishInputEvent] any number of times before it returns
    ([finishes]: the [seq] and [handled] of each call, as Java passes them),
    and an exception may leave the callback ([throws]): one of its own, or
    one that a call of [finishInputEvent] threw and that it did not catch. *)
Record HandlerReply := mkReply { finishes : list Finish; throws : bool }.

(** Modelled from the spec: the Handler Boundary, that is the Java receiver
    and the JNI helpers, none of which is among the sources: whether the
    weak reference still resolves ([jniGetReferent]), whether an event
    object can be obtained ([android_view_KeyEvent_fromNative],
    [android_view_MotionEvent_obtainAsCopy]), and how each callback behaves
    (each may fail). *)
Record Handler := mkHandler {
  referent : bool;
  eventObj : Z -> bool;
  onDispatchInputEvent : Z -> HandlerReply;
  motionInfoThrows : Z -> Z -> bool;
  focusThrows : bool -> bool -> bool;
  batchPendingThrows : Z -> bool }.

(** What the receiver does to its collaborators, in order of occurrence. *)
Inductive Effect :=
| SendFinishedSignal (sq : Z) (h : bool) (status : status_t)
| AddFd (fd events : Z)
| RemoveFd (fd : Z)
| DispatchInputEvent (sq : Z) (ev : InputEvent)
| DispatchMotionEventInfo (type num : Z)
| OnFocusEvent (hasFocus inTouchMode : bool)
| OnBatchedInputEventPending (source : Z)
| ThrowRuntimeException (status : status_t).

(** The members of [NativeInputEventReceiver] that the code reads and writes,
    then the collaborators: [looper] is the interest mask the [Looper] holds
    for the channel's descriptor ([None]: not registered), [exceptionPending]
    is the JNI environment's pending exception. *)
Record State := mkState {
  mInputConsumer : InputConsumer;
  mBatchedInputEventPending : bool;
  mFdEvents : Z;
  mFinishQueue : list Finish;
  mLastMotionEventType : Z;
  mLastTouchMoveNum : Z;
  looper : option Z;
  handler : Handler;
  exceptionPending : bool;
  trace : list Effect }.

(** Field updates. *)
Definition set_consumer (c : InputConsumer) (s : State) : State :=
  mkState c (mBatchedInputEventPending s) (mFdEvents s) (mFinishQueue s)
    (mLastMotionEventType s) (mLastTouchMoveNum s) (looper s) (handler s)
    (exceptionPending s) (trace s).
Definition set_pending (b : bool) (s : State) : State :=
  mkState (mInputConsumer s) b (mFdEvents s) (mFinishQueue s)
    (mLastMotionEventType s) (mLastTouchMoveNum s) (looper s) (handler s)
    (exceptionPending s) (trace s).
Definition set_fdEvents (e : Z) (s : State) : State :=
  mkState (mInputConsumer s) (mBatchedInputEventPending s) e (mFinishQueue s)
    (mLastMotionEventType s) (mLastTouchMoveNum s) (looper s) (handler s)
    (exceptionPending s) (trace s).
Definition set_queue (q : list Finish) (s : State) : State :=
  mkState (mInputConsumer s) (mBatchedInputEventPending s) (mFdEvents s) q
    (mLastMotionEventType s) (mLastTouchMoveNum s) (looper s) (handler s)
    (exceptionPending s) (trace s).
Definition set_lastMotion (t n : Z) (s : State) : State :=
  mkState (mInputConsumer s) (mBatchedInputEventPending s) (mFdEvents s)
    (mFinishQueue s) t n (looper s) (handler s) (exceptionPending s) (trace s).
Definition set_looper (l : option Z) (s : State) : State :=
  mkState (mInputConsumer s) (mBatchedInputEventPending s) (mFdEvents s)
    (mFinishQueue s) (mLastMotionEventType s) (mLastTouchMoveNum s) l
    (handler s) (exceptionPending s) (trace s).
Definition set_handler (h : Handler) (s : State) : State :=
  mkState (mInputConsumer s) (mBatchedInputEventPending s) (mFdEvents s)
    (mFinishQueue s) (mLastMotionEventType s) (mLastTouchMoveNum s) (looper s)
    h (exceptionPending s) (trace s).
Definition set_exception (b : bool) (s : State) : State :=
  mkState (mInputConsumer s) (mBatchedInputEventPending s) (mFdEvents s)
    (mFinishQueue s) (mLastMotionEventType s) (mLastTouchMoveNum s) (looper s)
    (handler s) b (trace s).
Definition emit (e : Effect) (s : State) : State :=
  mkState (mInputConsumer s) (mBatchedInputEventPending s) (mFdEvents s)
    (mFinishQueue s) (mLastMotionEventType s) (mLastTouchMoveNum s) (looper s)
    (handler s) (exceptionPending s) (trace s ++ [e]).

(** ** The state monad *)

Definition M (A : Type) : Type := State -> A * State.
Definition ret {A} (a : A) : M A := fun s => (a, s).
Definition bind {A B} (m : M A) (k : A -> M B) : M B :=
  fun s => let (a, s') := m s in k a s'.
Definition modify (f : State -> State) : M unit := fun s => (tt, f s).
Definition gets {A} (f : State -> A) : M A := fun s => (f s, s).
Definition when (b : bool) (m : M unit) : M unit := if b then m else ret tt.

Notation "x <- m ;; k" := (bind m (fun x => k))
  (at level 100, m at next level, right associativity).
Notation "m ;;; k" := (bind m (fun _ => k))
  (at level 100, right associativity).

(** [status != 0], the test behind [if (status)]. *)
Definition nonzero (z : Z) : bool := negb (z =? 0).
(** [a != b] on ints. *)
Definition neq (a b : Z) : bool := negb (a =? b).

(** ** Collaborators *)

(** [mInputConsumer.sendFinishedSignal(seq, handled)]: the transport gives
    the status it has in store for this call, and the call is recorded. *)
Definition sendFinishedSignal (sq : Z) (h : bool) : M status_t :=
  fun s =>
    let c := mInputConsumer s in
    let status := sendResult c (sendCount c) in
    (status,
     emit (SendFinishedSignal sq h status)
       (set_consumer (mkConsumer (getFd c) (inbound c) (pendingBatch c)
                        (pendingBatchSource c) (sendResult c) (S (sendCount c))) s)).

(** Modelled from the spec: the Readiness Loop's [addInterest], here
    [Looper::addFd(fd, 0, events, this, nullptr)] of [utils/Looper.h], which
    is not among the sources: the mask replaces whatever was registered for
    the descriptor. *)
Definition addFd (fd events : Z) : M unit :=
  modify (fun s => emit (AddFd fd events) (set_looper (Some events) s)).

(** Modelled from the spec: the Readiness Loop's [removeInterest], here
    [Looper::removeFd(fd)]. *)
Definition removeFd (fd : Z) : M unit :=
  modify (fun s => emit (RemoveFd fd) (set_looper None s)).

(** ** Member functions *)

(** [NativeInputEventReceiver::setFdEvents]. *)
Definition setFdEvents (events : Z) : M unit :=
  cur <- gets mFdEvents ;;
  if neq cur events then
    modify (set_fdEvents events) ;;;
    fd <- gets (fun s => getFd (mInputConsumer s)) ;;
    if nonzero events then addFd fd events else removeFd fd
  else ret tt.

(** The constructor: [mBatchedInputEventPending(false)], [mFdEvents(0)], an
    empty [mFinishQueue], and the two in-class initialisers [= -1]. *)
Definition construct (c : InputConsumer) (h : Handler) : State :=
  mkState c false 0 [] (-1) (-1) None h false [].

(** [NativeInputEventReceiver::initialize]. *)
Definition initialize : M status_t :=
  setFdEvents ALOOPER_EVENT_INPUT ;;; ret OK.

(** [NativeInputEventReceiver::dispose]. *)
Definition dispose : M unit := setFdEvents 0.

(** [NativeInputEventReceiver::finishInputEvent]. *)
Definition finishInputEvent (sq : Z) (h : bool) : M status_t :=
  status <- sendFinishedSignal sq h ;;
  if nonzero status then
    if status =? WOULD_BLOCK then
      modify (fun s => set_queue (mFinishQueue s ++ [mkFinish sq h]) s) ;;;
      size <- gets (fun s => length (mFinishQueue s)) ;;
      when (Nat.eqb size 1)
        (setFdEvents (Z.lor ALOOPER_EVENT_INPUT ALOOPER_EVENT_OUTPUT)) ;;;
      ret OK
    else ret status
  else ret status.

(** ** JNI calls *)

(** [env->ExceptionCheck()]. *)
Definition ExceptionCheck : M bool := gets exceptionPending.

(** A Java callback that throws leaves its exception pending in the JNI
    environment; one that returns normally leaves the environment as it
    found it. *)
Definition raise (b : bool) : M unit :=
  modify (fun s => set_exception (exceptionPending s || b) s).

(** [mMessageQueue->raiseAndClearException(env, ...)]. *)
Definition raiseAndClearException : M unit := modify (set_exception false).

(** [jniThrowRuntimeException(env, "... status=%d")]. *)
Definition jniThrowRuntimeException (status : status_t) : M unit :=
  modify (emit (ThrowRuntimeException status)) ;;; raise true.

(** The conversion of a [jint] to the [uint32_t] parameter [seq]. *)
Definition to_uint32 (z : Z) : Z := z mod 2 ^ 32.

(** [nativeFinishInputEvent], the JNI entry point behind the Java method
    [finishInputEvent]. *)
Definition nativeFinishInputEvent (sq : Z) (h : bool) : M unit :=
  status <- finishInputEvent (to_uint32 sq) h ;;
  when (nonzero status && neq status DEAD_OBJECT)
    (jniThrowRuntimeException status).

(** Modelled from the spec: a native method that Java code calls from inside
    a callback (the Handler Boundary "may run arbitrary logic, including
    re-entering [finishInputEvent]-style acknowledgement from within the
    dispatch callback itself").  An exception the native method throws is
    raised in its Java caller, inside the callback, and not in the frame of
    [consumeEvents]: the handler catches it or lets it leave the callback,
    and [throws] of its reply tells which.  So the exception state that the
    code after [CallVoidMethod] is going to see is, after the native call,
    what it was before. *)
Definition fromCallback (m : M unit) : M unit :=
  pending <- ExceptionCheck ;;
  m ;;;
  modify (set_exception pending).

(** The calls the handler makes back into the receiver while
    [dispatchInputEvent] runs: each one enters through
    [nativeFinishInputEvent]. *)
Fixpoint reenter (fs : list Finish) : M unit :=
  match fs with
  | [] => ret tt
  | f :: fs' =>
      fromCallback (nativeFinishInputEvent (seq f) (handled f)) ;;;
      reenter fs'
  end.

(** [env->CallVoidMethod(receiverObj, dispatchInputEvent, seq, inputEventObj)]. *)
Definition callDispatchInputEvent (sq : Z) (ev : InputEvent) : M unit :=
  modify (emit (DispatchInputEvent sq ev)) ;;;
  reply <- gets (fun s => onDispatchInputEvent (handler s) sq) ;;
  reenter (finishes reply) ;;;
  raise (throws reply).

(** [env->CallVoidMethod(receiverObj, dispatchMotionEventInfo, type, num)]. *)
Definition callDispatchMotionEventInfo (t n : Z) : M unit :=
  modify (emit (DispatchMotionEventInfo t n)) ;;;
  b <- gets (fun s => motionInfoThrows (handler s) t n) ;;
  raise b.

(** [env->CallVoidMethod(receiverObj, onFocusEvent, hasFocus, inTouchMode)]. *)
Definition callOnFocusEvent (hf tm : bool) : M unit :=
  modify (emit (OnFocusEvent hf tm)) ;;;
  b <- gets (fun s => focusThrows (handler s) hf tm) ;;
  raise b.

(** [env->CallVoidMethod(receiverObj, onBatchedInputEventPending, source)]. *)
Definition callOnBatchedInputEventPending (src : Z) : M unit :=
  modify (emit (OnBatchedInputEventPending src)) ;;;
  b <- gets (fun s => batchPendingThrows (handler s) src) ;;
  raise b.

(** ** consumeEvents *)

(** The locals of [consumeEvents] that live across iterations:
    [skipCallbacks], whether [receiverObj] holds a reference, and the value
    stored through [outConsumedBatch]. *)
Record Locals := mkLocals {
  skipCallbacks : bool;
  receiverObj : bool;
  consumedBatch : bool }.

(** An iteration that decoded an event ends either in [return status] or at
    the bottom of the loop body. *)
Inductive Flow :=
| Return (status : status_t) (L : Locals)
| Continue (L : Locals).

(** The values the out-parameters have when [consume] does not write them
    ([motionEventType = -1], [touchMoveNum = -1], [flag = false]); the
    transport's batch is as it was. *)
Definition untouched (s : State) : ConsumeOut :=
  mkOut (-1) (-1) false (pendingBatch (mInputConsumer s))
    (pendingBatchSource (mInputConsumer s)).

(** What a call of [mInputConsumer.consume] does to the transport: the answer
    leaves the pending ones, and the batch is as the answer reports it. *)
Definition consumed (o : ConsumeOut) (rest : list ConsumeResult) : M unit :=
  modify (fun s =>
    let c := mInputConsumer s in
    set_consumer (mkConsumer (getFd c) rest (hasPendingBatch o)
                    (getPendingBatchSource o) (sendResult c) (sendCount c)) s).

(** [if (!receiverObj.get()) { receiverObj.reset(jniGetReferent(...)); ... }]:
    [None] stands for [return DEAD_OBJECT]. *)
Definition resolveReceiver (L : Locals) : M (option Locals) :=
  if receiverObj L then ret (Some L)
  else
    alive <- gets (fun s => referent (handler s)) ;;
    if alive then ret (Some (mkLocals (skipCallbacks L) true (consumedBatch L)))
    else ret None.

(** Lines 263-270: the motion-info notification. *)
Definition notifyMotionInfo (o : ConsumeOut) : M unit :=
  lastType <- gets mLastMotionEventType ;;
  lastNum <- gets mLastTouchMoveNum ;;
  when (flag o && (neq lastType (motionEventType o) || neq lastNum (touchMoveNum o)))
    (callDispatchMotionEventInfo (motionEventType o) (touchMoveNum o) ;;;
     modify (set_lastMotion (motionEventType o) (touchMoveNum o))).

(** Lines 254-270, which every iteration runs once [consume] has answered. *)
Definition preamble (o : ConsumeOut) (L : Locals) : M (option Locals) :=
  r <- resolveReceiver L ;;
  match r with
  | None => ret None
  | Some L1 => notifyMotionInfo o ;;; ret (Some L1)
  end.

(** Lines 278-306: [status == WOULD_BLOCK]. *)
Definition onWouldBlock (L : Locals) : M (status_t * Locals) :=
  pending <- gets mBatchedInputEventPending ;;
  batch <- gets (fun s => pendingBatch (mInputConsumer s)) ;;
  if negb (skipCallbacks L) && negb pending && batch then
    r <- resolveReceiver L ;;
    match r with
    | None => ret (DEAD_OBJECT, L)
    | Some L1 =>
        modify (set_pending true) ;;;
        src <- gets (fun s => pendingBatchSource (mInputConsumer s)) ;;
        callOnBatchedInputEventPending src ;;;
        exc <- ExceptionCheck ;;
        when exc (modify (set_pending false)) ;;;
        ret (OK, L1)
    end
  else ret (OK, L).

(** An iteration in which [consume] answered a status other than [OK]
    (lines 254-306); it always returns from [consumeEvents]. *)
Definition onStatus (status : status_t) (o : ConsumeOut) (L : Locals)
  : M (status_t * Locals) :=
  r <- preamble o L ;;
  match r with
  | None => ret (DEAD_OBJECT, L)
  | Some L1 =>
      if neq status OK && neq status WOULD_BLOCK then ret (status, L1)
      else if status =? WOULD_BLOCK then onWouldBlock L1
      else ret (status, L1)
  end.

(** Lines 359-374: hand the event object to [dispatchInputEvent], or enter
    skip-state when there is none. *)
Definition deliver (sq : Z) (ev : InputEvent) (obj : bool) (L : Locals) : M Locals :=
  if obj then
    callDispatchInputEvent sq ev ;;;
    exc <- ExceptionCheck ;;
    ret (if exc then mkLocals true (receiverObj L) (consumedBatch L) else L)
  else ret (mkLocals true (receiverObj L) (consumedBatch L)).

(** Lines 309-375: [if (!skipCallbacks) { ... switch (inputEvent->getType()) ... }].
    [outp] tells whether [outConsumedBatch] is non-null. *)
Definition dispatch (outp : bool) (sq : Z) (ev : InputEvent) (L : Locals) : M Flow :=
  if negb (skipCallbacks L) then
    r <- resolveReceiver L ;;
    match r with
    | None => ret (Return DEAD_OBJECT L)
    | Some L1 =>
        match ev with
        | KeyEvent =>
            obj <- gets (fun s => eventObj (handler s) sq) ;;
            L2 <- deliver sq ev obj L1 ;;
            ret (Continue L2)
        | MotionEvent action =>
            let L1' :=
              if nonzero (Z.land action AMOTION_EVENT_ACTION_MOVE) && outp
              then mkLocals (skipCallbacks L1) (receiverObj L1) true else L1 in
            obj <- gets (fun s => eventObj (handler s) sq) ;;
            L2 <- deliver sq ev obj L1' ;;
            ret (Continue L2)
        | FocusEvent hf tm =>
            callOnFocusEvent hf tm ;;;
            finishInputEvent sq true ;;;
            ret (Return OK L1)
        | OtherEvent _ =>
            L2 <- deliver sq ev false L1 ;;
            ret (Continue L2)
        end
    end
  else ret (Continue L).

(** Lines 307-379: what an iteration does with a decoded event once the
    preamble is through. *)
Definition eventBody (outp : bool) (sq : Z) (ev : InputEvent) (L : Locals) : M Flow :=
  f <- dispatch outp sq ev L ;;
  match f with
  | Return st L2 => ret (Return st L2)
  | Continue L2 =>
      when (skipCallbacks L2) (sendFinishedSignal sq false ;;; ret tt) ;;;
      ret (Continue L2)
  end.

(** An iteration in which [consume] answered [OK] with an event
    (lines 254-270 and 307-379). *)
Definition onEvent (outp : bool) (sq : Z) (ev : InputEvent) (o : ConsumeOut)
    (L : Locals) : M Flow :=
  r <- preamble o L ;;
  match r with
  | None => ret (Return DEAD_OBJECT L)
  | Some L1 => eventBody outp sq ev L1
  end.

(** [for (;;)]: one iteration per answer of the transport.  [answers] are the
    answers [consume] is going to give; when none is left it answers
    [WOULD_BLOCK] without writing its out-parameters. *)
Fixpoint consumeLoop (answers : list ConsumeResult) (outp : bool) (L : Locals)
  : M (status_t * bool) :=
  match answers with
  | [] =>
      o <- gets untouched ;;
      r <- onStatus WOULD_BLOCK o L ;;
      ret (fst r, consumedBatch (snd r))
  | Failed status o :: rest =>
      consumed o rest ;;;
      r <- onStatus status o L ;;
      ret (fst r, consumedBatch (snd r))
  | Consumed sq ev o :: rest =>
      consumed o rest ;;;
      f <- onEvent outp sq ev o L ;;
      match f with
      | Return st L' => ret (st, consumedBatch L')
      | Continue L' => consumeLoop rest outp L'
      end
  end.

(** [NativeInputEventReceiver::consumeEvents].  [frameTime] only travels to
    the transport; [outp] tells whether [outConsumedBatch] is non-null, and
    the second component of the result is the value stored through it. *)
Definition consumeEvents (consumeBatches : bool) (frameTime : Z) (outp : bool)
  : M (status_t * bool) :=
  when consumeBatches (modify (set_pending false)) ;;;
  answers <- gets (fun s => inbound (mInputConsumer s)) ;;
  consumeLoop answers outp (mkLocals false false false).

(** ** handleEvent *)

(** Lines 186-211: the walk over [mFinishQueue] from position [i]; [pending]
    is the part of the queue from [i] on.  [Some (i, status)] is the position
    and status at which the walk stopped, [None] the end of the queue. *)
Fixpoint flushFrom (pending : list Finish) (i : nat) : M (option (nat * status_t)) :=
  match pending with
  | [] => ret None
  | f :: rest =>
      status <- sendFinishedSignal (seq f) (handled f) ;;
      if nonzero status then ret (Some (i, status))
      else flushFrom rest (S i)
  end.

(** Lines 185-219: [if (events & ALOOPER_EVENT_OUTPUT)]. *)
Definition flush : M Z :=
  q <- gets mFinishQueue ;;
  r <- flushFrom q 0%nat ;;
  match r with
  | Some (i, status) =>
      modify (fun s => set_queue (drop i (mFinishQueue s)) s) ;;;
      if status =? WOULD_BLOCK then ret 1
      else
        when (neq status DEAD_OBJECT)
          (jniThrowRuntimeException status ;;; raiseAndClearException) ;;;
        ret 0
  | None =>
      modify (set_queue []) ;;;
      setFdEvents ALOOPER_EVENT_INPUT ;;;
      ret 1
  end.

(** [NativeInputEventReceiver::handleEvent]. *)
Definition handleEvent (events : Z) : M Z :=
  if nonzero (Z.land events (Z.lor ALOOPER_EVENT_ERROR ALOOPER_EVENT_HANGUP))
  then ret 0
  else if nonzero (Z.land events ALOOPER_EVENT_INPUT) then
    r <- consumeEvents false (-1) false ;;
    raiseAndClearException ;;;
    let status := fst r in
    ret (if (status =? OK) || (status =? NO_MEMORY) then 1 else 0)
  else if nonzero (Z.land events ALOOPER_EVENT_OUTPUT) then flush
  else ret 1.

(** Modelled from the spec: the [Looper] side of a readiness notification
    (the callback "returns a continue/stop signal"): it calls [handleEvent]
    and drops the registration when the callback answers [0], which the
    code annotates with "remove the callback". *)
Definition readiness (events : Z) : M Z :=
  r <- handleEvent events ;;
  when (r =? 0) (modify (set_looper None)) ;;;
  ret r.

(** ** Reading the trace *)

(** The acknowledgements the transport accepted, in the order it accepted
    them: the calls of [sendFinishedSignal] that answered [OK]. *)
Fixpoint delivered (t : list Effect) : list Finish :=
  match t with
  | [] => []
  | SendFinishedSignal sq h status :: t' =>
      if status =? OK then mkFinish sq h :: delivered t' else delivered t'
  | _ :: t' => delivered t'
  end.

(** How often the descriptor was taken out of the [Looper] by [removeFd]. *)
Fixpoint removals (t : list Effect) : nat :=
  match t with
  | [] => 0%nat
  | RemoveFd _ :: t' => S (removals t')
  | _ :: t' => removals t'
  end.

(** How often a callback of the Java receiver was invoked. *)
Definition isBatchPending (e : Effect) : bool :=
  match e with OnBatchedInputEventPending _ => true | _ => false end.
Definition isMotionInfo (e : Effect) : bool :=
  match e with DispatchMotionEventInfo _ _ => true | _ => false end.
Definition isDispatch (e : Effect) : bool :=
  match e with DispatchInputEvent _ _ => true | _ => false end.
Definition isFocus (e : Effect) : bool :=
  match e with OnFocusEvent _ _ => true | _ => false end.
Fixpoint count (p : Effect -> bool) (t : list Effect) : nat :=
  match t with
  | [] => 0%nat
  | e :: t' => ((if p e then 1 else 0) + count p t')%nat
  end.

(** The status the transport gives to the next [sendFinishedSignal]. *)
Definition nextSend (s : State) : status_t :=
  sendResult (mInputConsumer s) (sendCount (mInputConsumer s)).


(** The trace of a run of successful sends, one per record. *)
Definition sentOK (q : list Finish) : list Effect :=
  map (fun f => SendFinishedSignal (seq f) (handled f) OK) q.

(** How many records at the front of [q] the transport accepts when the
    next call of [sendFinishedSignal] is call number [c] and [sr] gives the
    statuses. *)
Fixpoint okPrefix (sr : nat -> status_t) (c : nat) (q : list Finish) : nat :=
  match q with
  | [] => 0%nat
  | _ :: q' => if sr c =? OK then S (okPrefix sr (S c) q') else 0%nat
  end.

(** ** Runs of acknowledging operations *)

(** The two operations that move acknowledgements: a call of
    [finishInputEvent], and a write-readiness notification. *)
Inductive AckOp :=
| Finished (sq : Z) (h : bool)
| Writable.

Definition ackStep (op : AckOp) (s : State) : State :=
  match op with
  | Finished sq h => snd (finishInputEvent sq h s)
  | Writable => snd (handleEvent ALOOPER_EVENT_OUTPUT s)
  end.

Fixpoint ackRun (ops : list AckOp) (s : State) : State :=
  match ops with
  | [] => s
  | op :: ops' => ackRun ops' (ackStep op s)
  end.

(** The acknowledgements a run asks for, in the order it asks for them. *)
Fixpoint requested (ops : list AckOp) : list Finish :=
  match ops with
  | [] => []
  | Finished sq h :: ops' => mkFinish sq h :: requested ops'
  | Writable :: ops' => requested ops'
  end.

(** No direct send of the run is accepted while records wait in the queue:
    whenever [finishInputEvent] is called with a non-empty [mFinishQueue],
    the transport does not answer [OK] to its direct attempt. *)
Fixpoint noOvertaking (ops : list AckOp) (s : State) : bool :=
  match ops with
  | [] => true
  | op :: ops' =>
      match op with
      | Finished _ _ =>
          match mFinishQueue s with
          | [] => true
          | _ :: _ => negb (nextSend s =? OK)
          end
      | Writable => true
      end && noOvertaking ops' (ackStep op s)
  end.

(** The acknowledgements accepted so far, followed by those still queued. *)
Definition acked (s : State) : list Finish :=
  delivered (trace s) ++ mFinishQueue s.

(** The requests of a run that are not given up: those whose direct send the
    transport answers with [OK] or with [WOULD_BLOCK].  A request whose
    direct send meets a hard error is handed back to the caller with that
    status and is neither delivered nor queued. *)
Fixpoint surviving (ops : list AckOp) (s : State) : list Finish :=
  match ops with
  | [] => []
  | op :: ops' =>
      match op with
      | Finished sq h =>
          if (nextSend s =? OK) || (nextSend s =? WOULD_BLOCK)
          then [mkFinish sq h] else []
      | Writable => []
      end ++ surviving ops' (ackStep op s)
  end.

(** No direct send of the run meets a hard error. *)
Fixpoint noHardError (ops : list AckOp) (s : State) : bool :=
  match ops with
  | [] => true
  | op :: ops' =>
      match op with
      | Finished _ _ => (nextSend s =? OK) || (nextSend s =? WOULD_BLOCK)
      | Writable => true
      end && noHardError ops' (ackStep op s)
  end.

(** ** Concrete scenarios *)

(** A receiver whose callbacks return normally and never call back. *)
Definition quietHandler : Handler :=
  mkHandler true (fun _ => true) (fun _ => mkReply [] false)
    (fun _ _ => false) (fun _ _ => false) (fun _ => false).

(** A receiver whose [dispatchInputEvent] throws. *)
Definition throwingHandler : Handler :=
  mkHandler true (fun _ => true) (fun _ => mkReply [] true)
    (fun _ _ => false) (fun _ _ => false) (fun _ => false).

(** Out-parameters of a [consume] that reports no motion info and no batch. *)
Definition plain : ConsumeOut := mkOut (-1) (-1) false false 0.

(** A transport on descriptor 42 with the given pending answers and send
    statuses. *)
Definition channel (answers : list ConsumeResult) (sr : nat -> status_t)
  : InputConsumer :=
  mkConsumer 42 answers false 0 sr 0.

(** The write path is full for the first call and free afterwards. *)
Definition blockedOnce (n : nat) : status_t :=
  match n with O => WOULD_BLOCK | S _ => OK end.

(** The write path is always free. *)
Definition neverBlocked (n : nat) : status_t := OK.

(** A receiver right after [nativeInit]: constructed, then initialized. *)
Definition fresh (c : InputConsumer) (h : Handler) : State :=
  snd (initialize (construct c h)).

(** ** The life of a receiver *)

(** What can happen to a receiver between [nativeInit] and the end: the
    public operations, a readiness notification from the [Looper], and the
    moves of the world around it (the publisher writes more messages; the
    Java side changes its behaviour, or is finalized).  [consumeEvents] as a
    public operation is called from Java through JNI: an exception that is
    pending when it returns leaves the JNI environment with the return. *)
Inductive Op :=
| Initialize
| Dispose
| FinishInputEvent (sq : Z) (h : bool)
| ConsumeEvents (consumeBatches : bool) (frameTime : Z) (outp : bool)
| Readiness (events : Z)
| Arrives (answers : list ConsumeResult)
| Becomes (h : Handler).

Definition step (op : Op) (s : State) : State :=
  match op with
  | Initialize => snd (initialize s)
  | Dispose => snd (dispose s)
  | FinishInputEvent sq h => snd (finishInputEvent sq h s)
  | ConsumeEvents cb ft outp =>
      set_exception false (snd (consumeEvents cb ft outp s))
  | Readiness events => snd (readiness events s)
  | Arrives answers =>
      let c := mInputConsumer s in
      set_consumer (mkConsumer (getFd c) (inbound c ++ answers) (pendingBatch c)
                      (pendingBatchSource c) (sendResult c) (sendCount c)) s
  | Becomes h => set_handler h s
  end.

Fixpoint run (ops : list Op) (s : State) : State :=
  match ops with
  | [] => s
  | op :: ops' => run ops' (step op s)
  end.

(** The operations of an initialized receiver that has not been disposed. *)
Definition steady (op : Op) : bool :=
  match op with
  | Initialize | Dispose => false
  | _ => true
  end.



(** The [Looper] holds the mask the receiver asked for, unless a callback
    answered [0] and the registration was dropped. *)
Definition looperInSync (s : State) : Prop :=
  looper s = None \/ looper s = Some (mFdEvents s).

(** The two states of an initialized receiver: nothing queued and
    read-only interest, or something queued and read+write interest. *)
Definition active (s : State) : Prop :=
  (mFinishQueue s = [] /\ mFdEvents s = ALOOPER_EVENT_INPUT) \/
  (mFinishQueue s <> [] /\
   mFdEvents s = Z.lor ALOOPER_EVENT_INPUT ALOOPER_EVENT_OUTPUT).

Definition steadyState (s : State) : Prop := active s /\ looperInSync s.



(** A computation keeps a property of the state. *)
Definition preserves (P : State -> Prop) {A} (m : M A) : Prop :=
  forall s, P s -> P (snd (m s)).

(** A receiver whose weak reference no longer resolves. *)
Definition finalizedHandler : Handler :=
  mkHandler false (fun _ => true) (fun _ => mkReply [] false)
    (fun _ _ => false) (fun _ _ => false) (fun _ => false).

(** Out-parameters of a [consume] that raises [flag] for the sub-kind
    [(t, n)], and of one that reports the same sub-kind without raising it. *)
Definition flagged (t n : Z) : ConsumeOut := mkOut t n true false 0.
Definition unflagged (t n : Z) : ConsumeOut := mkOut t n false false 0.

(** Four motion events with the sub-kinds (1,0), (1,0), (1,1), (2,0). *)
Definition fourMoves : list ConsumeResult :=
  [Consumed 1 (MotionEvent 2) (flagged 1 0);
   Consumed 2 (MotionEvent 2) (flagged 1 0);
   Consumed 3 (MotionEvent 2) (flagged 1 1);
   Consumed 4 (MotionEvent 2) (flagged 2 0)].

(** [L] once [receiverObj] holds a reference. *)
Definition attached (L : Locals) : Locals :=
  mkLocals (skipCallbacks L) true (consumedBatch L).

(** ** Motion-info notifications *)

(** The sub-kinds notified through [dispatchMotionEventInfo], in order. *)
Fixpoint motionInfos (t : list Effect) : list (Z * Z) :=
  match t with
  | [] => []
  | DispatchMotionEventInfo ty n :: t' => (ty, n) :: motionInfos t'
  | _ :: t' => motionInfos t'
  end.

(** The remembered Last-Motion-Signature. *)
Definition signature (s : State) : Z * Z :=
  (mLastMotionEventType s, mLastTouchMoveNum s).

(** The out-parameters of an answer, and the sub-kind they carry. *)
Definition outOf (r : ConsumeResult) : ConsumeOut :=
  match r with Consumed _ _ o => o | Failed _ o => o end.
Definition subkind (o : ConsumeOut) : Z * Z := (motionEventType o, touchMoveNum o).

(** By the words of the specification: of a sequence of sub-kinds, one is
    notified when it differs from the remembered signature, which it then
    replaces; a sub-kind that repeats the signature is suppressed. *)
Fixpoint changes (last : Z * Z) (subkinds : list (Z * Z)) : list (Z * Z) :=
  match subkinds with
  | [] => []
  | p :: rest =>
      if (fst last =? fst p) && (snd last =? snd p) then changes last rest
      else p :: changes p rest
  end.

(** The sub-kinds of the answers for which the transport raised [flag]. *)
Fixpoint flaggedSubkinds (answers : list ConsumeResult) : list (Z * Z) :=
  match answers with
  | [] => []
  | r :: rest =>
      if flag (outOf r) then subkind (outOf r) :: flaggedSubkinds rest
      else flaggedSubkinds rest
  end.

(** Answers after which an attached receiver goes on to the next iteration:
    decoded events other than focus events. *)
Definition keepsLooping (r : ConsumeResult) : bool :=
  match r with
  | Consumed _ (FocusEvent _ _) _ => false
  | Consumed _ _ _ => true
  | Failed _ _ => false
  end.


(** [s'] differs from [s] in nothing that concerns the queue, the interest
    mask, the [Looper], or the motion-info notifications. *)
Definition sameCore (s s' : State) : Prop :=
  mFinishQueue s' = mFinishQueue s /\ mFdEvents s' = mFdEvents s /\
  looper s' = looper s /\ signature s' = signature s /\
  motionInfos (trace s') = motionInfos (trace s).

(** ** JNI entry points *)

(** [nativeDispose]: [receiver->dispose()]; the reference count it drops
    afterwards is not modelled. *)
Definition nativeDispose : M unit := dispose.

(** [nativeConsumeBatchedInputEvents]: the result is the [jboolean] it
    returns. *)
Definition nativeConsumeBatchedInputEvents (frameTimeNanos : Z) : M bool :=
  r <- consumeEvents true frameTimeNanos true ;;
  exc <- ExceptionCheck ;;
  if nonzero (fst r) && neq (fst r) DEAD_OBJECT && negb exc then
    jniThrowRuntimeException (fst r) ;;; ret false
  else ret (snd r).

(** The three [RuntimeException]s of [nativeInit]. *)
Inductive InitError :=
| ChannelNotInitialized
| MessageQueueNotInitialized
| InitializeFailed (status : status_t).

(** What [nativeInit] gives back: [0] with an exception thrown, or the
    receiver. *)
Inductive InitResult :=
| InitThrows (e : InitError)
| InitOk (s : State).

(** [nativeInit]: [inputChannel] is what
    [android_view_InputChannel_getInputChannel] finds ([None]: [nullptr]),
    [messageQueue] tells whether [android_os_MessageQueue_getMessageQueue]
    finds a queue. *)
Definition nativeInit (inputChannel : option InputConsumer) (messageQueue : bool)
    (h : Handler) : InitResult :=
  match inputChannel with
  | None => InitThrows ChannelNotInitialized
  | Some c =>
      if negb messageQueue then InitThrows MessageQueueNotInitialized
      else
        let r := initialize (construct c h) in
        if nonzero (fst r) then InitThrows (InitializeFailed (fst r))
        else InitOk (snd r)
  end.

(** ** More readings of the trace and of the transport's answers *)

(** Every acknowledgement handed to [sendFinishedSignal], accepted or not,
    in the order of the calls. *)
Fixpoint sends (t : list Effect) : list Finish :=
  match t with
  | [] => []
  | SendFinishedSignal sq h _ :: t' => mkFinish sq h :: sends t'
  | _ :: t' => sends t'
  end.

Definition isThrow (e : Effect) : bool :=
  match e with ThrowRuntimeException _ => true | _ => false end.
Definition isRemoveFd (e : Effect) : bool :=
  match e with RemoveFd _ => true | _ => false end.

(** The answer carries a decoded event. *)
Definition isConsumed (r : ConsumeResult) : bool :=
  match r with Consumed _ _ _ => true | Failed _ _ => false end.

(** One [handled = false] acknowledgement per decoded event, in order. *)
Fixpoint unhandled (answers : list ConsumeResult) : list Finish :=
  match answers with
  | [] => []
  | Consumed sq _ _ :: rest => mkFinish sq false :: unhandled rest
  | Failed _ _ :: rest => unhandled rest
  end.

(** The statuses other than [OK] among the answers. *)
Fixpoint failedStatuses (answers : list ConsumeResult) : list status_t :=
  match answers with
  | [] => []
  | Consumed _ _ _ :: rest => failedStatuses rest
  | Failed status _ :: rest => status :: failedStatuses rest
  end.

(** A motion event whose action word has the bit tested at line 334. *)
Definition movingMotion (r : ConsumeResult) : bool :=
  match r with
  | Consumed _ (MotionEvent action) _ =>
      nonzero (Z.land action AMOTION_EVENT_ACTION_MOVE)
  | _ => false
  end.

(** A key or a motion event. *)
Definition keyOrMotion (ev : InputEvent) : bool :=
  match ev with
  | KeyEvent | MotionEvent _ => true
  | _ => false
  end.

(** * Properties *)


(** ** Reading the trace *)

Lemma delivered_app (t1 t2 : list Effect) :
  delivered (t1 ++ t2) = delivered t1 ++ delivered t2.
Proof.
  induction t1 as [|e t1 IH]; simpl; [reflexivity|].
  destruct e; simpl; try exact IH.
  destruct (status =? OK); simpl; congruence.
Qed.

Lemma removals_app (t1 t2 : list Effect) :
  removals (t1 ++ t2) = (removals t1 + removals t2)%nat.
Proof.
  induction t1 as [|e t1 IH]; simpl; [reflexivity|].
  destruct e; simpl; lia.
Qed.

Lemma count_app (p : Effect -> bool) (t1 t2 : list Effect) :
  count p (t1 ++ t2) = (count p t1 + count p t2)%nat.
Proof. induction t1 as [|e t1 IH]; simpl; [reflexivity|]. rewrite IH. lia. Qed.

Lemma delivered_sentOK (q : list Finish) : delivered (sentOK q) = q.
Proof.
  induction q as [|[sq h] q IH]; simpl; [reflexivity|]. rewrite IH. reflexivity.
Qed.

Lemma motionInfos_app (t1 t2 : list Effect) :
  motionInfos (t1 ++ t2) = motionInfos t1 ++ motionInfos t2.
Proof.
  induction t1 as [|e t1 IH]; simpl; [reflexivity|].
  destruct e; simpl; congruence.
Qed.

(** Unfolding of the monad's plumbing. *)
Ltac run :=
  unfold bind, ret, gets, modify, when in *; simpl in *.

(** ** setFdEvents and dispose *)

Lemma setFdEvents_same (s : State) :
  setFdEvents (mFdEvents s) s = (tt, s).
Proof.
  unfold setFdEvents, neq; run. rewrite Z.eqb_refl. reflexivity.
Qed.

Lemma setFdEvents_mFdEvents (e : Z) (s : State) :
  mFdEvents (snd (setFdEvents e s)) = e.
Proof.
  unfold setFdEvents, neq, addFd, removeFd; run.
  destruct (mFdEvents s =? e) eqn:E; simpl.
  - apply Z.eqb_eq in E. exact E.
  - destruct (nonzero e); reflexivity.
Qed.

Lemma setFdEvents_queue (e : Z) (s : State) :
  mFinishQueue (snd (setFdEvents e s)) = mFinishQueue s.
Proof.
  unfold setFdEvents, neq, addFd, removeFd; run.
  destruct (mFdEvents s =? e); simpl; [reflexivity|].
  destruct (nonzero e); reflexivity.
Qed.

Lemma setFdEvents_changed (e : Z) (s : State) :
  mFdEvents s <> e -> e <> 0 ->
  snd (setFdEvents e s)
    = emit (AddFd (getFd (mInputConsumer s)) e) (set_looper (Some e) (set_fdEvents e s)).
Proof.
  intros H1 H2. unfold setFdEvents, neq, nonzero, addFd; run.
  destruct (Z.eqb_spec (mFdEvents s) e); [contradiction|]; simpl.
  destruct (Z.eqb_spec e 0); [contradiction|]; reflexivity.
Qed.

Lemma setFdEvents_looper (e : Z) (s : State) :
  e <> 0 -> looperInSync s -> looperInSync (snd (setFdEvents e s)).
Proof.
  intros He H. unfold looperInSync, setFdEvents, neq, nonzero, addFd; run.
  destruct (mFdEvents s =? e); simpl; [exact H|].
  destruct (Z.eqb_spec e 0); [contradiction|]. simpl. right. reflexivity.
Qed.

Lemma setFdEvents_delivered (e : Z) (s : State) :
  delivered (trace (snd (setFdEvents e s))) = delivered (trace s).
Proof.
  unfold setFdEvents, neq, addFd, removeFd; run.
  destruct (mFdEvents s =? e); simpl; [reflexivity|].
  destruct (nonzero e); simpl; rewrite delivered_app; simpl; apply app_nil_r.
Qed.

Lemma setFdEvents_frame (e : Z) (s : State) :
  let s' := snd (setFdEvents e s) in
  mInputConsumer s' = mInputConsumer s /\
  handler s' = handler s /\
  (trace s' = trace s \/ exists x, trace s' = trace s ++ [x] /\
     isDispatch x = false /\ isFocus x = false).
Proof.
  cbv zeta. unfold setFdEvents, neq, addFd, removeFd; run.
  destruct (mFdEvents s =? e); simpl; [tauto|].
  destruct (nonzero e); simpl; (split; [reflexivity|split; [reflexivity|]]);
    right; eexists; (split; [reflexivity|split; reflexivity]).
Qed.

(** C7: [dispose()] is idempotent.  A second call right after a first one
    changes nothing at all (no state change, no call to the [Looper], and
    being [void] it has no error to report), and across both calls
    [removeFd] is invoked at most once. *)
Theorem dispose_idempotent (s : State) :
  dispose (snd (dispose s)) = (tt, snd (dispose s)) /\
  (removals (trace (snd (dispose (snd (dispose s)))))
     <= removals (trace s) + 1)%nat.
Proof.
  assert (H2 : dispose (snd (dispose s)) = (tt, snd (dispose s))).
  { unfold dispose.
    rewrite <- (setFdEvents_mFdEvents 0 s) at 1.
    apply setFdEvents_same. }
  split; [exact H2|].
  rewrite H2; simpl.
  unfold dispose, setFdEvents, neq, addFd, removeFd; run.
  destruct (mFdEvents s =? 0); simpl; [lia|].
  rewrite removals_app; simpl; lia.
Qed.

(** ** finishInputEvent *)

(** The state right after the direct attempt of [finishInputEvent]. *)
Lemma sendFinishedSignal_eq (sq : Z) (h : bool) (s : State) :
  fst (sendFinishedSignal sq h s) = nextSend s /\
  trace (snd (sendFinishedSignal sq h s))
    = trace s ++ [SendFinishedSignal sq h (nextSend s)] /\
  mFinishQueue (snd (sendFinishedSignal sq h s)) = mFinishQueue s /\
  mFdEvents (snd (sendFinishedSignal sq h s)) = mFdEvents s /\
  looper (snd (sendFinishedSignal sq h s)) = looper s.
Proof. unfold sendFinishedSignal, nextSend; simpl. tauto. Qed.

Lemma send_consumer (sq : Z) (h : bool) (s : State) :
  sendResult (mInputConsumer (snd (sendFinishedSignal sq h s)))
    = sendResult (mInputConsumer s) /\
  sendCount (mInputConsumer (snd (sendFinishedSignal sq h s)))
    = S (sendCount (mInputConsumer s)) /\
  getFd (mInputConsumer (snd (sendFinishedSignal sq h s)))
    = getFd (mInputConsumer s).
Proof. unfold sendFinishedSignal; simpl. tauto. Qed.

Lemma send_exception (sq : Z) (h : bool) (s : State) :
  exceptionPending (snd (sendFinishedSignal sq h s)) = exceptionPending s.
Proof. reflexivity. Qed.

Lemma finishInputEvent_sent (sq : Z) (h : bool) (s : State) :
  nextSend s = OK ->
  finishInputEvent sq h s = (OK, snd (sendFinishedSignal sq h s)).
Proof.
  intros E. unfold finishInputEvent; run.
  unfold nextSend in E. unfold nonzero. rewrite E. reflexivity.
Qed.

Lemma finishInputEvent_failed (sq : Z) (h : bool) (s : State) :
  nextSend s <> OK -> nextSend s <> WOULD_BLOCK ->
  finishInputEvent sq h s = (nextSend s, snd (sendFinishedSignal sq h s)).
Proof.
  intros E1 E2. unfold finishInputEvent; run.
  unfold nextSend in *. unfold nonzero.
  destruct (Z.eqb_spec (sendResult (mInputConsumer s) (sendCount (mInputConsumer s))) 0) as [E|E];
    [contradiction|]; simpl.
  destruct (Z.eqb_spec (sendResult (mInputConsumer s) (sendCount (mInputConsumer s))) WOULD_BLOCK) as [E'|E'];
    [contradiction|reflexivity].
Qed.

Lemma finishInputEvent_blocked (sq : Z) (h : bool) (s : State) :
  nextSend s = WOULD_BLOCK ->
  finishInputEvent sq h s =
    let s1 := snd (sendFinishedSignal sq h s) in
    let s2 := set_queue (mFinishQueue s ++ [mkFinish sq h]) s1 in
    (OK, match mFinishQueue s with
         | [] => snd (setFdEvents (Z.lor ALOOPER_EVENT_INPUT ALOOPER_EVENT_OUTPUT) s2)
         | _ :: _ => s2
         end).
Proof.
  intros E. unfold finishInputEvent; run.
  unfold nextSend in E. rewrite E; simpl.
  destruct (mFinishQueue s) as [|f q]; simpl.
  - destruct (setFdEvents _ _) as [[] s']; reflexivity.
  - rewrite length_app; simpl.
    replace (length q + 1)%nat with (S (length q)) by lia.
    reflexivity.
Qed.

(** A call of [finishInputEvent] adds its record to the accepted ones when
    the direct attempt is accepted, to the queued ones when it would block,
    and to neither on a hard error. *)
Lemma finishInputEvent_acked (sq : Z) (h : bool) (s : State) :
  let s' := snd (finishInputEvent sq h s) in
  delivered (trace s')
    = delivered (trace s) ++ (if nextSend s =? OK then [mkFinish sq h] else []) /\
  mFinishQueue s'
    = mFinishQueue s ++ (if nextSend s =? WOULD_BLOCK then [mkFinish sq h] else []).
Proof.
  cbv zeta.
  destruct (sendFinishedSignal_eq sq h s) as (_ & Ht & Hq & _ & _).
  destruct (Z.eqb_spec (nextSend s) OK) as [E|E].
  - rewrite (finishInputEvent_sent sq h s E). cbn [snd].
    rewrite Ht, Hq, delivered_app, E. simpl. rewrite app_nil_r. split; reflexivity.
  - destruct (Z.eqb_spec (nextSend s) WOULD_BLOCK) as [W|W].
    + rewrite (finishInputEvent_blocked sq h s W). cbn [snd].
      assert (D : delivered (trace (snd (sendFinishedSignal sq h s))) = delivered (trace s)).
      { rewrite Ht, delivered_app, W. simpl. apply app_nil_r. }
      destruct (mFinishQueue s) as [|f q].
      * rewrite setFdEvents_delivered, setFdEvents_queue. simpl.
        rewrite app_nil_r. split; [exact D|reflexivity].
      * simpl. rewrite app_nil_r. split; [exact D|reflexivity].
    + rewrite (finishInputEvent_failed sq h s E W). cbn [snd].
      rewrite Ht, Hq, delivered_app. simpl.
      destruct (Z.eqb_spec (nextSend s) OK); [contradiction|].
      rewrite !app_nil_r. split; reflexivity.
Qed.

(** [finishInputEvent] leaves the inbound side of the transport and the Java
    side alone, and adds no callback to the trace. *)
Lemma finishInputEvent_frame (sq : Z) (h : bool) (s : State) :
  let s' := snd (finishInputEvent sq h s) in
  inbound (mInputConsumer s') = inbound (mInputConsumer s) /\
  handler s' = handler s /\
  count isDispatch (trace s') = count isDispatch (trace s) /\
  count isFocus (trace s') = count isFocus (trace s) /\
  exists tl, trace s' = trace s ++ SendFinishedSignal sq h (nextSend s) :: tl.
Proof.
  cbv zeta.
  assert (S1 : forall p, p (SendFinishedSignal sq h (nextSend s)) = false ->
            count p (trace (snd (sendFinishedSignal sq h s))) = count p (trace s)).
  { intros p Hp. unfold sendFinishedSignal. simpl. rewrite count_app.
    simpl. fold (nextSend s). rewrite Hp. lia. }
  destruct (Z.eq_dec (nextSend s) WOULD_BLOCK) as [W|W].
  - rewrite (finishInputEvent_blocked sq h s W). cbn [snd].
    destruct (mFinishQueue s) as [|f q].
    + match goal with |- context [setFdEvents ?e ?x] =>
        destruct (setFdEvents_frame e x) as (Hc & Hh & Ht) end.
      rewrite Hc, Hh.
      split; [reflexivity|]. split; [reflexivity|].
      destruct Ht as [Ht|(x & Ht & Hd & Hfo)]; rewrite Ht.
      * split; [apply (S1 isDispatch); reflexivity|].
        split; [apply (S1 isFocus); reflexivity|].
        exists []. reflexivity.
      * rewrite !count_app. simpl. rewrite Hd, Hfo, !Nat.add_0_r.
        split; [apply (S1 isDispatch); reflexivity|].
        split; [apply (S1 isFocus); reflexivity|].
        exists [x]. simpl. rewrite <- app_assoc. reflexivity.
    + split; [reflexivity|]. split; [reflexivity|].
      split; [apply (S1 isDispatch); reflexivity|].
      split; [apply (S1 isFocus); reflexivity|].
      exists []. reflexivity.
  - assert (E : finishInputEvent sq h s = (nextSend s, snd (sendFinishedSignal sq h s))).
    { destruct (Z.eq_dec (nextSend s) OK) as [E|E].
      - rewrite (finishInputEvent_sent sq h s E), E. reflexivity.
      - apply finishInputEvent_failed; assumption. }
    rewrite E. cbn [snd].
    split; [reflexivity|]. split; [reflexivity|].
    split; [apply (S1 isDispatch); reflexivity|].
    split; [apply (S1 isFocus); reflexivity|].
    exists []. reflexivity.
Qed.

(** C4: [finishInputEvent(seq, handled)] starts with a direct
    [sendFinishedSignal].  When that answers [WOULD_BLOCK] the record
    [{seq, handled}] is appended to [mFinishQueue] and [OK] is returned; the
    interest mask is set to read+write (one [addFd], unless that mask is
    already the registered one) exactly when the queue was empty before, and
    is not touched otherwise.  Any other status is returned as it is, with
    queue and interest unchanged. *)
Theorem finishInputEvent_enqueue_or_send (sq : Z) (h : bool) (s : State) :
  let status := nextSend s in
  let r := fst (finishInputEvent sq h s) in
  let s' := snd (finishInputEvent sq h s) in
  let both := Z.lor ALOOPER_EVENT_INPUT ALOOPER_EVENT_OUTPUT in
  let sent := trace s ++ [SendFinishedSignal sq h status] in
  (exists tl, trace s' = sent ++ tl) /\
  (status = WOULD_BLOCK ->
     r = OK /\
     mFinishQueue s' = mFinishQueue s ++ [mkFinish sq h] /\
     (mFinishQueue s = [] ->
        mFdEvents s' = both /\
        (mFdEvents s <> both ->
           looper s' = Some both /\
           trace s' = sent ++ [AddFd (getFd (mInputConsumer s)) both]) /\
        (mFdEvents s = both -> looper s' = looper s /\ trace s' = sent)) /\
     (mFinishQueue s <> [] ->
        mFdEvents s' = mFdEvents s /\ looper s' = looper s /\ trace s' = sent)) /\
  (status <> WOULD_BLOCK ->
     r = status /\
     mFinishQueue s' = mFinishQueue s /\
     mFdEvents s' = mFdEvents s /\ looper s' = looper s /\ trace s' = sent).
Proof.
  intros status r s' both sent.
  destruct (sendFinishedSignal_eq sq h s) as (_ & Ht & Hq & Hf & Hl).
  assert (Hblocked : status = WOULD_BLOCK ->
     r = OK /\
     mFinishQueue s' = mFinishQueue s ++ [mkFinish sq h] /\
     (mFinishQueue s = [] ->
        mFdEvents s' = both /\
        (mFdEvents s <> both ->
           looper s' = Some both /\
           trace s' = sent ++ [AddFd (getFd (mInputConsumer s)) both]) /\
        (mFdEvents s = both -> looper s' = looper s /\ trace s' = sent)) /\
     (mFinishQueue s <> [] ->
        mFdEvents s' = mFdEvents s /\ looper s' = looper s /\ trace s' = sent)).
  { intros E. subst r s'. rewrite (finishInputEvent_blocked sq h s E). simpl.
    split; [reflexivity|]. split.
    - destruct (mFinishQueue s); simpl; [apply setFdEvents_queue|reflexivity].
    - split.
      + intros Q. rewrite Q. split; [apply setFdEvents_mFdEvents|]. split.
        * intros N. rewrite setFdEvents_changed; [|simpl; exact N|discriminate].
          simpl. split; reflexivity.
        * intros N.
          replace (Z.lor ALOOPER_EVENT_INPUT ALOOPER_EVENT_OUTPUT) with
            (mFdEvents (set_queue ([] ++ [mkFinish sq h]) (snd (sendFinishedSignal sq h s)))).
          rewrite setFdEvents_same. simpl. split; [exact Hl|exact Ht].
      + intros Q. destruct (mFinishQueue s); [contradiction|]. simpl.
        repeat split; assumption. }
  assert (Hother : status <> WOULD_BLOCK ->
     r = status /\
     mFinishQueue s' = mFinishQueue s /\
     mFdEvents s' = mFdEvents s /\ looper s' = looper s /\ trace s' = sent).
  { intros E. subst r s'.
    destruct (Z.eq_dec status OK) as [E0|E0].
    - rewrite (finishInputEvent_sent sq h s E0). simpl.
      repeat split; try assumption. symmetry; exact E0.
    - rewrite (finishInputEvent_failed sq h s E0 E). simpl.
      repeat split; assumption. }
  split; [|split; assumption].
  destruct (Z.eq_dec status WOULD_BLOCK) as [E|E].
  - destruct (Hblocked E) as (_ & _ & He & Hne).
    destruct (mFinishQueue s) as [|f q] eqn:Q.
    + destruct (He eq_refl) as (_ & Hc & Hs).
      destruct (Z.eq_dec (mFdEvents s) both) as [B|B].
      * exists []. rewrite app_nil_r. apply Hs, B.
      * eexists. apply Hc, B.
    + exists []. rewrite app_nil_r. apply Hne. discriminate.
  - exists []. rewrite app_nil_r. apply Hother, E.
Qed.

Lemma finishInputEvent_witness :
  let s := fresh (channel [] blockedOnce) quietHandler in
  let r := finishInputEvent 5 true s in
  nextSend s = WOULD_BLOCK /\
  fst r = OK /\
  mFinishQueue (snd r) = [mkFinish 5 true] /\
  mFdEvents (snd r) = Z.lor ALOOPER_EVENT_INPUT ALOOPER_EVENT_OUTPUT.
Proof.
  cbv zeta.
  destruct (finishInputEvent_enqueue_or_send 5 true
              (fresh (channel [] blockedOnce) quietHandler)) as (_ & H & _).
  destruct (H eq_refl) as (H1 & H2 & H3 & _).
  destruct (H3 eq_refl) as (H4 & _).
  split; [reflexivity|]. split; [exact H1|]. split; [exact H2|exact H4].
Defined.

(** ** The flush on write-readiness *)

Lemma okPrefix_le sr c q : (okPrefix sr c q <= length q)%nat.
Proof.
  revert c; induction q as [|f q IH]; intros c; simpl; [lia|].
  destruct (sr c =? OK); [specialize (IH (S c))|]; lia.
Qed.

Lemma okPrefix_ok sr c q j :
  (j < okPrefix sr c q)%nat -> sr (c + j)%nat = OK.
Proof.
  revert c j; induction q as [|f q IH]; intros c j; simpl; [lia|].
  destruct (Z.eqb_spec (sr c) OK) as [E|E]; [|lia].
  destruct j as [|j]; intros H.
  - rewrite Nat.add_0_r. exact E.
  - replace (c + S j)%nat with (S c + j)%nat by lia. apply IH. lia.
Qed.

Lemma okPrefix_stop sr c q :
  (okPrefix sr c q < length q)%nat -> sr (c + okPrefix sr c q)%nat <> OK.
Proof.
  revert c; induction q as [|f q IH]; intros c; simpl; [lia|].
  destruct (Z.eqb_spec (sr c) OK) as [E|E]; intros H.
  - replace (c + S (okPrefix sr (S c) q))%nat
      with (S c + okPrefix sr (S c) q)%nat by lia.
    apply IH. lia.
  - rewrite Nat.add_0_r. exact E.
Qed.

(** [okPrefix] is the position of the first send that is not accepted. *)
Lemma okPrefix_first sr c q k :
  (k <= length q)%nat ->
  (forall j, (j < k)%nat -> sr (c + j)%nat = OK) ->
  (k < length q -> sr (c + k)%nat <> OK)%nat ->
  okPrefix sr c q = k.
Proof.
  intros Hk Hok Hstop. pose proof (okPrefix_le sr c q) as Hle.
  destruct (Nat.lt_trichotomy (okPrefix sr c q) k) as [L|[L|L]]; [|exact L|].
  - exfalso. apply (okPrefix_stop sr c q); [lia|]. apply Hok, L.
  - exfalso. apply Hstop; [lia|]. apply (okPrefix_ok sr c q), L.
Qed.

Lemma flushFrom_cons (f : Finish) (q : list Finish) (i : nat) (s : State) :
  flushFrom (f :: q) i s =
    if nextSend s =? OK
    then flushFrom q (S i) (snd (sendFinishedSignal (seq f) (handled f) s))
    else (Some (i, nextSend s), snd (sendFinishedSignal (seq f) (handled f) s)).
Proof.
  simpl. unfold bind, ret, nonzero, nextSend, sendFinishedSignal, OK. simpl.
  destruct (sendResult (mInputConsumer s) (sendCount (mInputConsumer s)) =? 0);
    reflexivity.
Qed.

(** The walk over the queue: it sends the accepted prefix, then the record
    the transport does not accept (if there is one), and touches nothing but
    the transport. *)
Lemma flushFrom_spec (q : list Finish) (i : nat) (s : State) :
  let sr := sendResult (mInputConsumer s) in
  let c := sendCount (mInputConsumer s) in
  let k := okPrefix sr c q in
  let s' := snd (flushFrom q i s) in
  fst (flushFrom q i s)
    = (if (k <? length q)%nat then Some ((i + k)%nat, sr (c + k)%nat) else None) /\
  trace s'
    = trace s ++ sentOK (take k q) ++
        match q !! k with
        | Some f => [SendFinishedSignal (seq f) (handled f) (sr (c + k)%nat)]
        | None => []
        end /\
  mFinishQueue s' = mFinishQueue s /\
  mFdEvents s' = mFdEvents s /\
  looper s' = looper s /\
  exceptionPending s' = exceptionPending s /\
  getFd (mInputConsumer s') = getFd (mInputConsumer s) /\
  sendResult (mInputConsumer s') = sr.
Proof.
  revert i s; induction q as [|f q IH]; intros i s.
  - simpl. rewrite app_nil_r. repeat split; reflexivity.
  - rewrite flushFrom_cons.
    pose proof (send_consumer (seq f) (handled f) s) as (Hsr & Hsc & Hfd).
    destruct (sendFinishedSignal_eq (seq f) (handled f) s) as (_ & Ht & Hq & Hf & Hl).
    pose proof (send_exception (seq f) (handled f) s) as He.
    cbn [okPrefix length]. unfold nextSend.
    destruct (Z.eqb_spec (sendResult (mInputConsumer s) (sendCount (mInputConsumer s))) OK)
      as [E|E].
    + specialize (IH (S i) (snd (sendFinishedSignal (seq f) (handled f) s))).
      cbv zeta in IH. rewrite Hsr, Hsc in IH.
      destruct IH as (H1 & H2 & H3 & H4 & H5 & H6 & H7 & H8).
      cbv zeta. rewrite H1, H2, H3, H4, H5, H6, H7, H8, Ht, Hq, Hf, Hl, He, Hfd.
      unfold nextSend. rewrite E.
      replace (i + S (okPrefix (sendResult (mInputConsumer s)) (S (sendCount (mInputConsumer s))) q))%nat
        with (S i + okPrefix (sendResult (mInputConsumer s)) (S (sendCount (mInputConsumer s))) q)%nat by lia.
      replace (sendCount (mInputConsumer s) + S (okPrefix (sendResult (mInputConsumer s)) (S (sendCount (mInputConsumer s))) q))%nat
        with (S (sendCount (mInputConsumer s)) + okPrefix (sendResult (mInputConsumer s)) (S (sendCount (mInputConsumer s))) q)%nat by lia.
      repeat split; try reflexivity.
      rewrite <- app_assoc. reflexivity.
    + cbv zeta. cbn [fst snd take lookup list_lookup sentOK map app].
      rewrite !Nat.add_0_r, Ht, Hq, Hf, Hl, He, Hfd, Hsr.
      repeat split; reflexivity.
Qed.

(** What [flush] does, by the number [k] of records the transport accepts. *)
Lemma flush_spec (s : State) :
  let q := mFinishQueue s in
  let sr := sendResult (mInputConsumer s) in
  let c := sendCount (mInputConsumer s) in
  let k := okPrefix sr c q in
  let r := fst (flush s) in
  let s' := snd (flush s) in
  (k = length q ->
     r = 1 /\ mFinishQueue s' = [] /\ mFdEvents s' = ALOOPER_EVENT_INPUT /\
     trace s' = trace s ++ sentOK q ++
       (if mFdEvents s =? ALOOPER_EVENT_INPUT then []
        else [AddFd (getFd (mInputConsumer s)) ALOOPER_EVENT_INPUT]) /\
     looper s' = (if mFdEvents s =? ALOOPER_EVENT_INPUT then looper s
                  else Some ALOOPER_EVENT_INPUT)) /\
  (forall f, q !! k = Some f ->
     let status := sr (c + k)%nat in
     status <> OK /\
     r = (if status =? WOULD_BLOCK then 1 else 0) /\
     mFinishQueue s' = drop k q /\
     mFdEvents s' = mFdEvents s /\
     looper s' = looper s /\
     trace s' = trace s ++ sentOK (take k q) ++
       SendFinishedSignal (seq f) (handled f) status ::
       (if (status =? WOULD_BLOCK) || (status =? DEAD_OBJECT) then []
        else [ThrowRuntimeException status])).
Proof.
  intros q sr c k r s'.
  pose proof (flushFrom_spec (mFinishQueue s) 0 s) as HS. cbv zeta in HS.
  pose proof (okPrefix_le sr c q) as Hle.
  pose proof (okPrefix_stop sr c q) as Hstop.
  subst r s'. unfold flush, bind, gets. subst q sr c. 
  destruct (flushFrom (mFinishQueue s) 0 s) as [res s1].
  set (k' := okPrefix _ _ _) in *. subst k. 
  destruct HS as (H1 & H2 & H3 & H4 & H5 & H6 & H7 & H8).
  cbn [fst snd] in *.
  split.
  - intros Hk. rewrite Hk in H1. rewrite Nat.ltb_irrefl in H1. subst res.
    rewrite Hk in H2. rewrite firstn_all in H2.
    rewrite (proj2 (lookup_ge_None (mFinishQueue s) (length (mFinishQueue s)))) in H2 by lia.
    rewrite app_nil_r in H2.
    unfold setFdEvents, neq; run. rewrite H4.
    destruct (mFdEvents s =? ALOOPER_EVENT_INPUT) eqn:E1; simpl.
    + rewrite app_nil_r. apply Z.eqb_eq in E1.
      repeat split; try assumption; congruence.
    + unfold addFd; run. rewrite H2, H7. repeat split. rewrite <- app_assoc. reflexivity.
  - intros f Hf.
    set (status := sendResult (mInputConsumer s) (sendCount (mInputConsumer s) + k')%nat) in *.
    assert (Hlt : (k' < length (mFinishQueue s))%nat) by (apply lookup_lt_is_Some; eauto).
    specialize (Hstop Hlt).
    apply Nat.ltb_lt in Hlt. rewrite Hlt in H1. subst res.
    rewrite Hf in H2. cbn [Nat.add] in *.
    split; [exact Hstop|].
    run. rewrite H3.
    destruct (Z.eqb_spec status WOULD_BLOCK) as [W|W]; simpl.
    + repeat split; try assumption.
    + unfold neq. destruct (Z.eqb_spec status DEAD_OBJECT) as [D|D]; simpl.
      * repeat split; try assumption.
      * unfold jniThrowRuntimeException, raise, raiseAndClearException; run.
        repeat split; try assumption. rewrite H2.
        rewrite <- !app_assoc. reflexivity.
Qed.

(** A flush moves records from the queue to the transport without changing
    their order: accepted followed by queued is the same list before and
    after, whatever the transport answers. *)
Lemma flush_acked (s : State) : acked (snd (flush s)) = acked s.
Proof.
  unfold acked. destruct (flush_spec s) as [Hall Hstop].
  set (k := okPrefix _ _ _) in *.
  destruct (mFinishQueue s !! k) as [f|] eqn:Hf.
  - destruct (Hstop f eq_refl) as (Hne & _ & Hq & _ & _ & Ht).
    rewrite Hq, Ht, !delivered_app, delivered_sentOK.
    assert (T : delivered
      (SendFinishedSignal (seq f) (handled f)
         (sendResult (mInputConsumer s) (sendCount (mInputConsumer s) + k)%nat)
       :: (if (sendResult (mInputConsumer s) (sendCount (mInputConsumer s) + k)%nat =? WOULD_BLOCK)
              || (sendResult (mInputConsumer s) (sendCount (mInputConsumer s) + k)%nat =? DEAD_OBJECT)
           then [] else [ThrowRuntimeException
              (sendResult (mInputConsumer s) (sendCount (mInputConsumer s) + k)%nat)])) = []).
    { simpl.
      destruct (Z.eqb_spec (sendResult (mInputConsumer s) (sendCount (mInputConsumer s) + k)%nat) OK);
        [contradiction|].
      destruct (_ || _); reflexivity. }
    rewrite T, app_nil_r, <- app_assoc, take_drop. reflexivity.
  - assert (K : k = length (mFinishQueue s)).
    { apply lookup_ge_None in Hf.
      pose proof (okPrefix_le (sendResult (mInputConsumer s))
                    (sendCount (mInputConsumer s)) (mFinishQueue s)). fold k in H. lia. }
    destruct (Hall K) as (_ & Hq & _ & Ht & _).
    rewrite Hq, Ht, !delivered_app, delivered_sentOK, app_nil_r.
    destruct (mFdEvents s =? ALOOPER_EVENT_INPUT); simpl; rewrite app_nil_r; reflexivity.
Qed.

(** Which branch of [handleEvent] a readiness mask selects. *)
Lemma handleEvent_output (events : Z) (s : State) :
  Z.land events (Z.lor ALOOPER_EVENT_ERROR ALOOPER_EVENT_HANGUP) = 0 ->
  Z.land events ALOOPER_EVENT_INPUT = 0 ->
  Z.land events ALOOPER_EVENT_OUTPUT <> 0 ->
  handleEvent events s = flush s.
Proof.
  intros H1 H2 H3. unfold handleEvent, nonzero. rewrite H1, H2. simpl.
  destruct (Z.eqb_spec (Z.land events ALOOPER_EVENT_OUTPUT) 0); [contradiction|].
  reflexivity.
Qed.

Lemma handleEvent_OUTPUT_flush (s : State) :
  handleEvent ALOOPER_EVENT_OUTPUT s = flush s.
Proof. apply handleEvent_output; [reflexivity|reflexivity|discriminate]. Qed.

(** C5 (as stated, refuted): a write-readiness notification that reports
    read-readiness as well is answered from the read branch of
    [handleEvent], which returns before the write bit is looked at.  With
    record 5 queued and the write path free again, the notification
    [INPUT | OUTPUT] sends nothing: the record stays queued and the
    interest mask stays read+write. *)
Lemma flush_counterexample :
  let s := ackRun [Finished 5 true] (fresh (channel [] blockedOnce) quietHandler) in
  let events := Z.lor ALOOPER_EVENT_INPUT ALOOPER_EVENT_OUTPUT in
  let r := handleEvent events s in
  Z.land events ALOOPER_EVENT_OUTPUT <> 0 /\
  mFinishQueue s = [mkFinish 5 true] /\
  nextSend s = OK /\
  fst r = 1 /\
  mFinishQueue (snd r) = [mkFinish 5 true] /\
  mFdEvents (snd r) = Z.lor ALOOPER_EVENT_INPUT ALOOPER_EVENT_OUTPUT /\
  trace (snd r) = trace s /\
  delivered (trace (snd r)) = [].
Proof. cbv zeta. split; [discriminate|]. repeat split; reflexivity. Qed.

(** C5 (amended): on a write-readiness notification that reports neither
    read-readiness nor an error or hangup (those bits are tested first, and
    their branches return), the records of [mFinishQueue] are sent from the
    front, in queue order, up to the first one the transport does not
    accept.  If the first [k] records are accepted and record [k] gets
    [WOULD_BLOCK], exactly those [k] records leave the queue, record [k]
    and all later ones stay, the interest mask and the registration are left
    as they are, and the callback answers [1] (keep, try again later).  If
    every record is accepted the queue is emptied, the interest mask becomes
    read-only, and the callback answers [1]. *)
Theorem flush_on_write_readiness (events : Z) (s : State) (k : nat) :
  Z.land events (Z.lor ALOOPER_EVENT_ERROR ALOOPER_EVENT_HANGUP) = 0 ->
  Z.land events ALOOPER_EVENT_INPUT = 0 ->
  Z.land events ALOOPER_EVENT_OUTPUT <> 0 ->
  (k <= length (mFinishQueue s))%nat ->
  (forall j, (j < k)%nat ->
     sendResult (mInputConsumer s) (sendCount (mInputConsumer s) + j)%nat = OK) ->
  let q := mFinishQueue s in
  let r := fst (handleEvent events s) in
  let s' := snd (handleEvent events s) in
  (forall f, q !! k = Some f ->
     sendResult (mInputConsumer s) (sendCount (mInputConsumer s) + k)%nat = WOULD_BLOCK ->
     r = 1 /\
     mFinishQueue s' = drop k q /\
     (exists later, mFinishQueue s' = f :: later /\ q = take k q ++ f :: later) /\
     mFdEvents s' = mFdEvents s /\
     looper s' = looper s /\
     trace s' = trace s ++ sentOK (take k q)
                  ++ [SendFinishedSignal (seq f) (handled f) WOULD_BLOCK]) /\
  (k = length q ->
     r = 1 /\
     mFinishQueue s' = [] /\
     mFdEvents s' = ALOOPER_EVENT_INPUT /\
     looper s' = (if mFdEvents s =? ALOOPER_EVENT_INPUT then looper s
                  else Some ALOOPER_EVENT_INPUT) /\
     trace s' = trace s ++ sentOK q ++
       (if mFdEvents s =? ALOOPER_EVENT_INPUT then []
        else [AddFd (getFd (mInputConsumer s)) ALOOPER_EVENT_INPUT])).
Proof.
  intros E1 E2 E3 Hk Hok q r s'. subst r s'.
  rewrite (handleEvent_output events s E1 E2 E3).
  destruct (flush_spec s) as [Hall Hstop]. fold q in Hall, Hstop.
  split.
  - intros f Hf Hwb.
    assert (K : okPrefix (sendResult (mInputConsumer s)) (sendCount (mInputConsumer s)) q = k).
    { apply okPrefix_first; [exact Hk|exact Hok|]. intros _. rewrite Hwb. discriminate. }
    rewrite K in Hstop. specialize (Hstop f Hf). cbv zeta in Hstop.
    rewrite Hwb in Hstop. simpl in Hstop.
    destruct Hstop as (_ & Hr & Hq & Hfd & Hl & Ht).
    repeat split; try assumption.
    exists (drop (S k) q). rewrite Hq.
    rewrite <- (drop_S q f k Hf). split; [reflexivity|].
    symmetry. apply take_drop.
  - intros Hlen.
    assert (K : okPrefix (sendResult (mInputConsumer s)) (sendCount (mInputConsumer s)) q = k).
    { apply okPrefix_first; [exact Hk|exact Hok|]. lia. }
    rewrite K in Hall. destruct (Hall Hlen) as (Hr & Hq & Hfd & Ht & Hl).
    repeat split; assumption.
Qed.

Lemma flush_on_write_readiness_witness :
  let sr := fun n => match n with
                     | 0%nat | 1%nat | 3%nat => WOULD_BLOCK
                     | _ => OK
                     end in
  let s := ackRun [Finished 5 true; Finished 6 false]
             (fresh (channel [] sr) quietHandler) in
  let r := handleEvent ALOOPER_EVENT_OUTPUT s in
  mFinishQueue s = [mkFinish 5 true; mkFinish 6 false] /\
  fst r = 1 /\
  mFinishQueue (snd r) = [mkFinish 6 false] /\
  mFdEvents (snd r) = mFdEvents s.
Proof.
  cbv zeta.
  destruct (flush_on_write_readiness ALOOPER_EVENT_OUTPUT
              (ackRun [Finished 5 true; Finished 6 false]
                 (fresh (channel [] (fun n => match n with
                                              | 0%nat | 1%nat | 3%nat => WOULD_BLOCK
                                              | _ => OK
                                              end)) quietHandler))
              1%nat eq_refl eq_refl ltac:(discriminate)
              ltac:(vm_compute; lia)
              ltac:(intros [|j] Hj; [reflexivity|lia])) as [H _].
  destruct (H (mkFinish 6 false) eq_refl eq_refl) as (H1 & H2 & _ & H3 & _).
  split; [reflexivity|]. split; [exact H1|]. split; [exact H2|exact H3].
Defined.

(** ** Order of acknowledgements *)

(** One step of a run in which nothing overtakes the queue: the request of
    a [finishInputEvent] goes to the end of the accepted and queued
    acknowledgements unless its direct send meets a hard error, and a flush
    moves records from the queue to the transport without reordering. *)
Lemma ackStep_exact (op : AckOp) (s : State) :
  noOvertaking [op] s = true ->
  acked (ackStep op s) = acked s ++ surviving [op] s.
Proof.
  destruct op as [sq h|]; cbn [noOvertaking surviving ackStep]; intros H.
  - rewrite app_nil_r.
    destruct (finishInputEvent_acked sq h s) as [Hd Hq]. unfold acked.
    rewrite Hd, Hq.
    destruct (Z.eqb_spec (nextSend s) OK) as [E|E].
    + destruct (mFinishQueue s) as [|f q]; [|discriminate H].
      rewrite E. simpl. rewrite !app_nil_r. reflexivity.
    + destruct (Z.eqb_spec (nextSend s) WOULD_BLOCK) as [W|W]; cbn [orb].
      * rewrite app_nil_r, app_assoc. reflexivity.
      * rewrite !app_nil_r. reflexivity.
  - rewrite handleEvent_OUTPUT_flush, flush_acked, app_nil_r. reflexivity.
Qed.

Lemma surviving_sublist (ops : list AckOp) (s : State) :
  surviving ops s `sublist_of` requested ops.
Proof.
  revert s; induction ops as [|op ops IH]; intros s; [reflexivity|].
  cbn [surviving requested]. destruct op as [sq h|].
  - destruct ((nextSend s =? OK) || (nextSend s =? WOULD_BLOCK)); cbn [app].
    + apply sublist_skip, IH.
    + apply sublist_cons, IH.
  - apply IH.
Qed.

Lemma surviving_all (ops : list AckOp) (s : State) :
  noHardError ops s = true -> surviving ops s = requested ops.
Proof.
  revert s; induction ops as [|op ops IH]; intros s H; [reflexivity|].
  cbn [noHardError] in H. apply andb_prop in H as [H1 H2].
  cbn [surviving requested]. rewrite (IH _ H2).
  destruct op as [sq h|]; [rewrite H1|]; reflexivity.
Qed.

(** C2 (as stated, refuted): with the write path full for the first
    acknowledgement only, [finishInputEvent(1)] is queued,
    [finishInputEvent(2)] is sent at once, and the flush sends 1 after it:
    the transport receives 2 before 1. *)
Lemma fifo_counterexample :
  let ops := [Finished 1 true; Finished 2 true; Writable] in
  let s := ackRun ops (fresh (channel [] blockedOnce) quietHandler) in
  requested ops = [mkFinish 1 true; mkFinish 2 true] /\
  delivered (trace s) = [mkFinish 2 true; mkFinish 1 true] /\
  ~ delivered (trace s) `sublist_of` requested ops.
Proof.
  cbv zeta. split; [reflexivity|]. split; [reflexivity|].
  change (~ [mkFinish 2 true; mkFinish 1 true] `sublist_of` [mkFinish 1 true; mkFinish 2 true]).
  intros H.
  apply sublist_cons_r in H as [H|(l' & E & H)]; [|discriminate E].
  apply sublist_cons_r in H as [H|(l' & E & H)].
  - apply sublist_nil_r in H. discriminate H.
  - inversion E; subst. apply sublist_nil_r in H. discriminate H.
Qed.

(** C2 (amended): in every interleaving of [finishInputEvent] calls and
    write-readiness flushes in which no direct send is accepted while
    records are still queued, acknowledgements reach the transport in the
    order in which they were requested.  The accepted acknowledgements
    followed by the queued ones are exactly what was accepted and queued
    before, followed by the requests of the run in request order, without
    those whose direct send met a hard error: no other request is dropped,
    none is duplicated, and none overtakes another.  When no direct send
    meets a hard error, they are all the requests. *)
Theorem acknowledgements_in_order (ops : list AckOp) (s : State) :
  noOvertaking ops s = true ->
  acked (ackRun ops s) = acked s ++ surviving ops s /\
  surviving ops s `sublist_of` requested ops /\
  (noHardError ops s = true -> acked (ackRun ops s) = acked s ++ requested ops) /\
  acked (ackRun ops s) `sublist_of` acked s ++ requested ops.
Proof.
  intros H.
  assert (E : acked (ackRun ops s) = acked s ++ surviving ops s).
  { revert s H; induction ops as [|op ops IH]; intros s H.
    - simpl. rewrite app_nil_r. reflexivity.
    - cbn [noOvertaking] in H. apply andb_prop in H as [H1 H2].
      cbn [ackRun]. rewrite (IH _ H2), ackStep_exact
        by (cbn [noOvertaking]; rewrite H1; reflexivity).
      cbn [surviving]. rewrite !app_nil_r, app_assoc. reflexivity. }
  split; [exact E|]. split; [apply surviving_sublist|]. split.
  - intros Hh. rewrite E, (surviving_all ops s Hh). reflexivity.
  - rewrite E. apply sublist_app; [reflexivity|apply surviving_sublist].
Qed.

Lemma acknowledgements_in_order_witness :
  let ops := [Finished 1 true; Finished 2 false; Writable; Finished 3 true;
              Finished 4 false] in
  let s := fresh (channel [] (fun n => match n with
                                       | 0%nat | 1%nat => WOULD_BLOCK
                                       | 5%nat => DEAD_OBJECT
                                       | _ => OK
                                       end))
             quietHandler in
  noOvertaking ops s = true /\
  requested ops = [mkFinish 1 true; mkFinish 2 false; mkFinish 3 true; mkFinish 4 false] /\
  acked (ackRun ops s) = [mkFinish 1 true; mkFinish 2 false; mkFinish 3 true].
Proof.
  cbv zeta.
  assert (H : noOvertaking [Finished 1 true; Finished 2 false; Writable; Finished 3 true;
                            Finished 4 false]
                (fresh (channel [] (fun n => match n with
                                             | 0%nat | 1%nat => WOULD_BLOCK
                                             | 5%nat => DEAD_OBJECT
                                             | _ => OK
                                             end))
                   quietHandler) = true) by (vm_compute; reflexivity).
  split; [exact H|]. split; [reflexivity|].
  destruct (acknowledgements_in_order _ _ H) as [E _]. rewrite E. reflexivity.
Defined.

(** ** Iterations of the consume loop *)

Lemma resolveReceiver_attached (L : Locals) (s : State) :
  receiverObj L = true \/ referent (handler s) = true ->
  resolveReceiver L s = (Some (attached L), s).
Proof.
  intros H. unfold resolveReceiver, attached; run.
  destruct L as [sk [|] cb]; simpl in *; [reflexivity|].
  destruct H as [H|H]; [discriminate|]. rewrite H. reflexivity.
Qed.

Lemma resolveReceiver_finalized (L : Locals) (s : State) :
  receiverObj L = false -> referent (handler s) = false ->
  resolveReceiver L s = (None, s).
Proof.
  intros H1 H2. unfold resolveReceiver; run. rewrite H1, H2. reflexivity.
Qed.

(** The signature test of line 263: both remembered values equal the new
    ones. *)
Lemma notifyMotionInfo_fires (o : ConsumeOut) (s : State) :
  flag o = true ->
  (mLastMotionEventType s =? motionEventType o)
    && (mLastTouchMoveNum s =? touchMoveNum o) = false ->
  snd (notifyMotionInfo o s) =
    set_lastMotion (motionEventType o) (touchMoveNum o)
      (set_exception
         (exceptionPending s
          || motionInfoThrows (handler s) (motionEventType o) (touchMoveNum o))
         (emit (DispatchMotionEventInfo (motionEventType o) (touchMoveNum o)) s)).
Proof.
  intros Hf Hc. unfold notifyMotionInfo, callDispatchMotionEventInfo, raise, neq; run.
  rewrite Hf. simpl.
  destruct (mLastMotionEventType s =? motionEventType o);
    destruct (mLastTouchMoveNum s =? touchMoveNum o);
    try discriminate Hc; reflexivity.
Qed.

Lemma notifyMotionInfo_quiet (o : ConsumeOut) (s : State) :
  flag o = false \/
  (mLastMotionEventType s =? motionEventType o)
    && (mLastTouchMoveNum s =? touchMoveNum o) = true ->
  notifyMotionInfo o s = (tt, s).
Proof.
  intros H. unfold notifyMotionInfo, neq; run.
  destruct H as [H|H].
  - rewrite H. reflexivity.
  - apply andb_prop in H as [H1 H2]. rewrite H1, H2. simpl.
    rewrite andb_false_r. reflexivity.
Qed.

(** The motion-info step changes the trace by at most one
    [DispatchMotionEventInfo], the pending exception and the signature, and
    nothing else. *)
Lemma notifyMotionInfo_frame (o : ConsumeOut) (s : State) :
  let s' := snd (notifyMotionInfo o s) in
  mInputConsumer s' = mInputConsumer s /\
  mBatchedInputEventPending s' = mBatchedInputEventPending s /\
  mFinishQueue s' = mFinishQueue s /\
  mFdEvents s' = mFdEvents s /\
  looper s' = looper s /\
  handler s' = handler s /\
  (trace s' = trace s \/
   trace s' = trace s ++ [DispatchMotionEventInfo (motionEventType o) (touchMoveNum o)]).
Proof.
  cbv zeta.
  destruct (flag o) eqn:Hf.
  - destruct ((mLastMotionEventType s =? motionEventType o)
              && (mLastTouchMoveNum s =? touchMoveNum o)) eqn:Hs.
    + rewrite (notifyMotionInfo_quiet o s (or_intror Hs)). simpl. tauto.
    + rewrite (notifyMotionInfo_fires o s Hf Hs). simpl. tauto.
  - rewrite (notifyMotionInfo_quiet o s (or_introl Hf)). simpl. tauto.
Qed.

Lemma preamble_attached (o : ConsumeOut) (L : Locals) (s : State) :
  receiverObj L = true \/ referent (handler s) = true ->
  preamble o L s = (Some (attached L), snd (notifyMotionInfo o s)).
Proof.
  intros H. unfold preamble, bind. rewrite (resolveReceiver_attached L s H).
  destruct (notifyMotionInfo o s). reflexivity.
Qed.

Lemma consumeLoop_event (sq : Z) (ev : InputEvent) (o : ConsumeOut)
    (rest : list ConsumeResult) (outp : bool) (L : Locals) (s : State) :
  consumeLoop (Consumed sq ev o :: rest) outp L s =
    match onEvent outp sq ev o L (snd (consumed o rest s)) with
    | (Return st L', s') => ((st, consumedBatch L'), s')
    | (Continue L', s') => consumeLoop rest outp L' s'
    end.
Proof.
  cbn [consumeLoop]. unfold bind at 1 2. unfold consumed, modify. cbn [snd].
  destruct (onEvent _ _ _ _ _ _) as [[st L'|L'] s']; reflexivity.
Qed.

Lemma callOnFocusEvent_eq (hf tm : bool) (s : State) :
  snd (callOnFocusEvent hf tm s) =
    set_exception (exceptionPending s || focusThrows (handler s) hf tm)
      (emit (OnFocusEvent hf tm) s).
Proof. reflexivity. Qed.


Lemma onWouldBlock_silent (L : Locals) (s : State) :
  skipCallbacks L = true \/ mBatchedInputEventPending s = true
    \/ pendingBatch (mInputConsumer s) = false ->
  onWouldBlock L s = ((OK, L), s).
Proof.
  intros H. unfold onWouldBlock, bind at 1 2. unfold gets at 1 2.
  destruct H as [H|[H|H]]; rewrite H; simpl;
    rewrite ?andb_false_r; reflexivity.
Qed.

Lemma onStatus_WOULD_BLOCK (o : ConsumeOut) (L : Locals) (s : State) :
  receiverObj L = true \/ referent (handler s) = true ->
  onStatus WOULD_BLOCK o L s =
    onWouldBlock (attached L) (snd (notifyMotionInfo o s)).
Proof.
  intros H. unfold onStatus, bind. rewrite (preamble_attached o L s H). reflexivity.
Qed.

Lemma onEvent_attached (outp : bool) (sq : Z) (ev : InputEvent) (o : ConsumeOut)
    (L : Locals) (s : State) :
  receiverObj L = true \/ referent (handler s) = true ->
  onEvent outp sq ev o L s
    = eventBody outp sq ev (attached L) (snd (notifyMotionInfo o s)).
Proof.
  intros Hr. unfold onEvent. unfold bind at 1.
  rewrite (preamble_attached o L s Hr). reflexivity.
Qed.

Lemma eventBody_focus (outp : bool) (sq : Z) (hf tm : bool) (L : Locals) (s : State) :
  skipCallbacks L = false -> receiverObj L = true ->
  eventBody outp sq (FocusEvent hf tm) L s =
    (Return OK L, snd (finishInputEvent sq true (snd (callOnFocusEvent hf tm s)))).
Proof.
  intros Hk Hr. unfold eventBody, dispatch. rewrite Hk. cbn [negb].
  unfold bind at 1 2. unfold resolveReceiver. rewrite Hr.
  unfold bind, ret.
  destruct (callOnFocusEvent hf tm s) as [[] s2]. cbn [snd].
  destruct (finishInputEvent sq true s2) as [st s3]. reflexivity.
Qed.

Lemma eventBody_skipped (outp : bool) (sq : Z) (ev : InputEvent) (L : Locals) (s : State) :
  skipCallbacks L = true ->
  eventBody outp sq ev L s = (Continue L, snd (sendFinishedSignal sq false s)).
Proof.
  intros Hk. unfold eventBody, dispatch. rewrite Hk. cbn [negb].
  unfold bind, ret, when. rewrite Hk. reflexivity.
Qed.

(** ** What consumeEvents leaves alone *)

(** [consumeEvents] reaches the queue, the interest mask and the [Looper]
    only through [finishInputEvent], and the motion-info signature only
    through the notification step of the preamble: a property that these
    two keep, and that does not look at anything else, is kept by every
    step of the loop. *)
Section Preservation.

Variable P : State -> Prop.

Hypothesis P_frame : forall s s', sameCore s s' -> P s -> P s'.

Hypothesis P_finish : forall sq h, preserves P (finishInputEvent sq h).

Lemma preserves_ret {A} (a : A) : preserves P (ret a).
Proof. intros s H. exact H. Qed.

Lemma preserves_bind {A B} (m : M A) (k : A -> M B) :
  preserves P m -> (forall a, preserves P (k a)) -> preserves P (bind m k).
Proof.
  intros Hm Hk s H. unfold bind. specialize (Hm s H).
  destruct (m s) as [a s1]. apply Hk, Hm.
Qed.

Lemma preserves_gets {A} (f : State -> A) : preserves P (gets f).
Proof. intros s H. exact H. Qed.

Lemma preserves_when (b : bool) (m : M unit) :
  preserves P m -> preserves P (when b m).
Proof. intros Hm. destruct b; [exact Hm|apply preserves_ret]. Qed.

Lemma preserves_modify (f : State -> State) :
  (forall s, sameCore s (f s)) -> preserves P (modify f).
Proof. intros Hf s H. simpl. exact (P_frame s (f s) (Hf s) H). Qed.

Ltac core :=
  intros ?; unfold sameCore, signature; simpl;
  rewrite ?motionInfos_app; simpl; rewrite ?app_nil_r;
  repeat split; reflexivity.

Lemma preserves_send (sq : Z) (h : bool) : preserves P (sendFinishedSignal sq h).
Proof. intros s H. apply (P_frame s); [|exact H]. revert s H. core. Qed.

Ltac frame :=
  repeat first
    [ solve [auto 2]
    | apply preserves_ret
    | apply preserves_gets
    | apply preserves_send
    | apply P_finish
    | apply preserves_modify; core
    | apply preserves_when
    | apply preserves_bind; [|intros ?]
    | match goal with
      | |- preserves _ (if ?b then _ else _) => destruct b
      | |- preserves _ (match ?x with _ => _ end) => destruct x
      end ].

Lemma preserves_reenter (fs : list Finish) : preserves P (reenter fs).
Proof. induction fs as [|f fs IH]; simpl; frame. Qed.

Lemma preserves_raise (b : bool) : preserves P (raise b).
Proof. unfold raise; frame. Qed.

Lemma preserves_resolveReceiver (L : Locals) : preserves P (resolveReceiver L).
Proof. unfold resolveReceiver; frame. Qed.

Lemma preserves_onWouldBlock (L : Locals) : preserves P (onWouldBlock L).
Proof.
  unfold onWouldBlock, callOnBatchedInputEventPending, ExceptionCheck.
  pose proof preserves_resolveReceiver. pose proof preserves_raise.
  frame.
Qed.

Lemma preserves_deliver (sq : Z) (ev : InputEvent) (obj : bool) (L : Locals) :
  preserves P (deliver sq ev obj L).
Proof.
  unfold deliver, callDispatchInputEvent, ExceptionCheck.
  pose proof preserves_reenter. pose proof preserves_raise.
  frame.
Qed.

Lemma preserves_eventBody (outp : bool) (sq : Z) (ev : InputEvent) (L : Locals) :
  preserves P (eventBody outp sq ev L).
Proof.
  unfold eventBody, dispatch, callOnFocusEvent.
  pose proof preserves_resolveReceiver. pose proof preserves_raise.
  pose proof preserves_deliver.
  frame.
Qed.

Hypothesis P_motion : forall o, preserves P (notifyMotionInfo o).

Lemma preserves_preamble (o : ConsumeOut) (L : Locals) : preserves P (preamble o L).
Proof.
  unfold preamble. pose proof preserves_resolveReceiver. frame.
Qed.

Lemma preserves_onStatus (st : status_t) (o : ConsumeOut) (L : Locals) :
  preserves P (onStatus st o L).
Proof.
  unfold onStatus.
  pose proof preserves_preamble. pose proof preserves_onWouldBlock.
  frame.
Qed.

Lemma preserves_onEvent (outp : bool) (sq : Z) (ev : InputEvent) (o : ConsumeOut)
    (L : Locals) :
  preserves P (onEvent outp sq ev o L).
Proof.
  unfold onEvent.
  pose proof preserves_preamble. pose proof preserves_eventBody.
  frame.
Qed.

Lemma preserves_consumeLoop (answers : list ConsumeResult) (outp : bool) (L : Locals) :
  preserves P (consumeLoop answers outp L).
Proof.
  revert L; induction answers as [|r answers IH]; intros L; simpl.
  - pose proof preserves_onStatus. frame.
  - pose proof preserves_onStatus. pose proof preserves_onEvent.
    unfold consumed. destruct r; frame.
Qed.

Lemma preserves_consumeEvents (cb : bool) (ft : Z) (outp : bool) :
  preserves P (consumeEvents cb ft outp).
Proof.
  unfold consumeEvents. pose proof preserves_consumeLoop. frame.
Qed.

End Preservation.

(** ** Queue and interest *)


Lemma steadyState_core (s s' : State) :
  sameCore s s' -> steadyState s -> steadyState s'.
Proof.
  unfold sameCore, steadyState, active, looperInSync.
  intros (-> & -> & -> & _). tauto.
Qed.

Lemma steadyState_motion (o : ConsumeOut) : preserves steadyState (notifyMotionInfo o).
Proof.
  intros s H. destruct (notifyMotionInfo_frame o s) as (_ & _ & Hq & Hf & Hl & _).
  unfold steadyState, active, looperInSync in *. rewrite Hq, Hf, Hl. exact H.
Qed.

Lemma steadyState_frame (s s' : State) :
  mFinishQueue s' = mFinishQueue s -> mFdEvents s' = mFdEvents s ->
  looper s' = looper s -> steadyState s -> steadyState s'.
Proof.
  unfold steadyState, active, looperInSync. intros -> -> ->. tauto.
Qed.

Lemma steadyState_finish (sq : Z) (h : bool) :
  preserves steadyState (finishInputEvent sq h).
Proof.
  intros s H.
  destruct (sendFinishedSignal_eq sq h s) as (_ & _ & Hq & Hf & Hl).
  destruct (Z.eq_dec (nextSend s) WOULD_BLOCK) as [W|W].
  - rewrite (finishInputEvent_blocked sq h s W). cbn [snd].
    destruct H as [Ha Hs]. destruct (mFinishQueue s) as [|f q] eqn:Q.
    + split.
      * right. rewrite setFdEvents_queue, setFdEvents_mFdEvents. simpl.
        split; [discriminate|reflexivity].
      * apply setFdEvents_looper; [discriminate|].
        unfold looperInSync in *. simpl. exact Hs.
    + split.
      * right. simpl. split; [discriminate|].
        destruct Ha as [[Hq' _]|[_ Hf']]; [congruence|exact Hf'].
      * unfold looperInSync in *. simpl. exact Hs.
  - apply (steadyState_frame s); [| | |exact H].
    all: destruct (Z.eq_dec (nextSend s) OK) as [E|E];
      [rewrite (finishInputEvent_sent sq h s E)
      |rewrite (finishInputEvent_failed sq h s E W)]; assumption.
Qed.

Lemma steadyState_flush : preserves steadyState flush.
Proof.
  intros s [Ha Hs]. destruct (flush_spec s) as [Hall Hstop].
  set (k := okPrefix _ _ _) in *.
  destruct (mFinishQueue s !! k) as [f|] eqn:Hf.
  - destruct (Hstop f eq_refl) as (_ & _ & Hq & Hfd & Hl & _).
    split.
    + right. rewrite Hq, Hfd. split.
      * rewrite (drop_S _ _ _ Hf). discriminate.
      * destruct Ha as [[E _]|[_ E]]; [|exact E].
        rewrite E in Hf. discriminate Hf.
    + unfold looperInSync in *. rewrite Hl, Hfd. exact Hs.
  - assert (K : k = length (mFinishQueue s)).
    { apply lookup_ge_None in Hf.
      pose proof (okPrefix_le (sendResult (mInputConsumer s))
                    (sendCount (mInputConsumer s)) (mFinishQueue s)) as Hle.
      fold k in Hle. lia. }
    destruct (Hall K) as (_ & Hq & Hfd & _ & Hl).
    split.
    + left. split; assumption.
    + unfold looperInSync in *. rewrite Hl, Hfd.
      destruct (Z.eqb_spec (mFdEvents s) ALOOPER_EVENT_INPUT) as [E|E].
      * rewrite <- E. exact Hs.
      * right. reflexivity.
Qed.

Lemma steadyState_handleEvent (events : Z) : preserves steadyState (handleEvent events).
Proof.
  unfold handleEvent.
  destruct (nonzero (Z.land events (Z.lor ALOOPER_EVENT_ERROR ALOOPER_EVENT_HANGUP))).
  { intros s H. exact H. }
  destruct (nonzero (Z.land events ALOOPER_EVENT_INPUT)).
  { intros s H. unfold bind.
    pose proof (preserves_consumeEvents steadyState steadyState_core
                  steadyState_finish steadyState_motion false (-1) false s H) as H'.
    destruct (consumeEvents false (-1) false s) as [r s1]. simpl in *.
    apply (steadyState_frame s1); [reflexivity..|exact H']. }
  destruct (nonzero (Z.land events ALOOPER_EVENT_OUTPUT)).
  - apply steadyState_flush.
  - intros s H. exact H.
Qed.

Lemma steadyState_readiness (events : Z) : preserves steadyState (readiness events).
Proof.
  intros s H. unfold readiness, bind.
  pose proof (steadyState_handleEvent events s H) as H'.
  destruct (handleEvent events s) as [r s1]. simpl in *.
  destruct (r =? 0); simpl; [|exact H'].
  destruct H' as [Ha _]. split; [exact Ha|]. left. reflexivity.
Qed.

Lemma steadyState_step (op : Op) (s : State) :
  steady op = true -> steadyState s -> steadyState (step op s).
Proof.
  destruct op; simpl; intros Hop H; try discriminate Hop.
  - apply steadyState_finish, H.
  - apply (steadyState_frame (snd (consumeEvents consumeBatches frameTime outp s)));
      [reflexivity..|].
    apply (preserves_consumeEvents steadyState steadyState_core steadyState_finish
             steadyState_motion), H.
  - apply steadyState_readiness, H.
  - apply (steadyState_frame s); [reflexivity..|exact H].
  - apply (steadyState_frame s); [reflexivity..|exact H].
Qed.

Lemma steadyState_fresh (c : InputConsumer) (h : Handler) : steadyState (fresh c h).
Proof.
  split; [left; split; reflexivity|right; reflexivity].
Qed.

Lemma steadyState_run (ops : list Op) (s : State) :
  forallb steady ops = true -> steadyState s -> steadyState (run ops s).
Proof.
  revert s; induction ops as [|op ops IH]; intros s Hops H; [exact H|].
  simpl in Hops. apply andb_prop in Hops as [H1 H2].
  simpl. apply IH; [exact H2|]. apply steadyState_step; assumption.
Qed.

(** *** The registration the [Looper] holds *)











(** ** Read-readiness *)

Lemma handleEvent_input (events : Z) (s : State) :
  Z.land events (Z.lor ALOOPER_EVENT_ERROR ALOOPER_EVENT_HANGUP) = 0 ->
  Z.land events ALOOPER_EVENT_INPUT <> 0 ->
  handleEvent events s =
    let status := fst (fst (consumeEvents false (-1) false s)) in
    (if (status =? OK) || (status =? NO_MEMORY) then 1 else 0,
     set_exception false (snd (consumeEvents false (-1) false s))).
Proof.
  intros H1 H2. unfold handleEvent, nonzero. rewrite H1. simpl.
  destruct (Z.eqb_spec (Z.land events ALOOPER_EVENT_INPUT) 0); [contradiction|].
  simpl. unfold bind, raiseAndClearException, modify, ret.
  destruct (consumeEvents false (-1) false s) as [[st b] s1]. reflexivity.
Qed.

(** C10: on a read-readiness notification (no error or hangup bit) the
    callback answers [1], so the registration is kept, when [consumeEvents]
    returns [OK] and also when it returns [NO_MEMORY]; for every other
    status ([DEAD_OBJECT] included) it answers [0], and the [Looper] drops
    the registration. *)
Theorem read_readiness_keeps_registration (events : Z) (s : State) :
  Z.land events (Z.lor ALOOPER_EVENT_ERROR ALOOPER_EVENT_HANGUP) = 0 ->
  Z.land events ALOOPER_EVENT_INPUT <> 0 ->
  let status := fst (fst (consumeEvents false (-1) false s)) in
  let r := fst (handleEvent events s) in
  (status = OK \/ status = NO_MEMORY ->
     r = 1 /\ fst (readiness events s) = 1 /\
     looper (snd (readiness events s)) = looper (snd (handleEvent events s))) /\
  (status <> OK -> status <> NO_MEMORY ->
     r = 0 /\ fst (readiness events s) = 0 /\
     looper (snd (readiness events s)) = None).
Proof.
  intros H1 H2 status r. subst r. unfold readiness, bind.
  rewrite (handleEvent_input events s H1 H2). cbv zeta. fold status. cbn [fst snd].
  split.
  - intros [E|E]; rewrite E; simpl; repeat split; reflexivity.
  - intros E1 E2.
    destruct (Z.eqb_spec status OK); [contradiction|].
    destruct (Z.eqb_spec status NO_MEMORY); [contradiction|].
    simpl. repeat split; reflexivity.
Qed.

Lemma read_readiness_witness :
  let s := fresh (channel [Failed NO_MEMORY plain] neverBlocked) quietHandler in
  let t := fresh (channel [Consumed 1 KeyEvent plain] neverBlocked) finalizedHandler in
  (fst (fst (consumeEvents false (-1) false s)) = NO_MEMORY /\
   fst (handleEvent ALOOPER_EVENT_INPUT s) = 1) /\
  (fst (fst (consumeEvents false (-1) false t)) = DEAD_OBJECT /\
   fst (handleEvent ALOOPER_EVENT_INPUT t) = 0).
Proof.
  cbv zeta. split.
  - split; [reflexivity|].
    apply (read_readiness_keeps_registration ALOOPER_EVENT_INPUT
             (fresh (channel [Failed NO_MEMORY plain] neverBlocked) quietHandler)
             eq_refl ltac:(discriminate)).
    right. reflexivity.
  - split; [reflexivity|].
    apply (read_readiness_keeps_registration ALOOPER_EVENT_INPUT
             (fresh (channel [Consumed 1 KeyEvent plain] neverBlocked) finalizedHandler)
             eq_refl ltac:(discriminate)); discriminate.
Defined.

(** ** Motion-info notifications *)

Lemma setFdEvents_motion (e : Z) (s : State) :
  sameCore (snd (setFdEvents e s)) (snd (setFdEvents e s)) /\
  signature (snd (setFdEvents e s)) = signature s /\
  motionInfos (trace (snd (setFdEvents e s))) = motionInfos (trace s).
Proof.
  split; [repeat split|].
  unfold setFdEvents, neq, addFd, removeFd, signature; run.
  destruct (mFdEvents s =? e); simpl; [split; reflexivity|].
  destruct (nonzero e); simpl; rewrite motionInfos_app; simpl;
    rewrite app_nil_r; split; reflexivity.
Qed.

(** [finishInputEvent] notifies no motion info and keeps the signature. *)
Lemma finishInputEvent_motion (sq : Z) (h : bool) (s : State) :
  signature (snd (finishInputEvent sq h s)) = signature s /\
  motionInfos (trace (snd (finishInputEvent sq h s))) = motionInfos (trace s).
Proof.
  assert (S1 : signature (snd (sendFinishedSignal sq h s)) = signature s /\
               motionInfos (trace (snd (sendFinishedSignal sq h s)))
                 = motionInfos (trace s)).
  { unfold sendFinishedSignal, signature. simpl. rewrite motionInfos_app. simpl.
    rewrite app_nil_r. split; reflexivity. }
  destruct (Z.eq_dec (nextSend s) WOULD_BLOCK) as [W|W].
  - rewrite (finishInputEvent_blocked sq h s W). cbn [snd].
    destruct (mFinishQueue s) as [|f q].
    + match goal with |- context [setFdEvents ?e ?x] =>
        destruct (setFdEvents_motion e x) as (_ & Hs & Hm) end.
      rewrite Hs, Hm. exact S1.
    + exact S1.
  - destruct (Z.eq_dec (nextSend s) OK) as [E|E].
    + rewrite (finishInputEvent_sent sq h s E). exact S1.
    + rewrite (finishInputEvent_failed sq h s E W). exact S1.
Qed.

(** The part of the state the motion-info notifications depend on. *)
Lemma motionView_core (g : Z * Z) (m : list (Z * Z)) (s s' : State) :
  sameCore s s' ->
  signature s = g /\ motionInfos (trace s) = m ->
  signature s' = g /\ motionInfos (trace s') = m.
Proof. intros (_ & _ & _ & -> & ->). tauto. Qed.

Lemma motionView_finish (g : Z * Z) (m : list (Z * Z)) (sq : Z) (h : bool) :
  preserves (fun s => signature s = g /\ motionInfos (trace s) = m)
    (finishInputEvent sq h).
Proof.
  intros s H. destruct (finishInputEvent_motion sq h s) as [-> ->]. exact H.
Qed.

(** After the preamble, an iteration neither notifies motion info nor
    touches the signature. *)
Lemma eventBody_motion (outp : bool) (sq : Z) (ev : InputEvent) (L : Locals) (s : State) :
  signature (snd (eventBody outp sq ev L s)) = signature s /\
  motionInfos (trace (snd (eventBody outp sq ev L s))) = motionInfos (trace s).
Proof.
  apply (preserves_eventBody _ (motionView_core _ _) (motionView_finish _ _)).
  split; reflexivity.
Qed.

Lemma onWouldBlock_motion (L : Locals) (s : State) :
  signature (snd (onWouldBlock L s)) = signature s /\
  motionInfos (trace (snd (onWouldBlock L s))) = motionInfos (trace s).
Proof.
  apply (preserves_onWouldBlock _ (motionView_core _ _)).
  split; reflexivity.
Qed.

Lemma deliver_receiverObj (sq : Z) (ev : InputEvent) (obj : bool) (L : Locals) (s : State) :
  receiverObj (fst (deliver sq ev obj L s)) = receiverObj L.
Proof.
  unfold deliver. destruct obj; [|reflexivity].
  unfold bind, ret, ExceptionCheck, gets.
  destruct (callDispatchInputEvent sq ev s) as [[] s1].
  destruct (exceptionPending s1); reflexivity.
Qed.

Lemma dispatch_continues (outp : bool) (sq : Z) (ev : InputEvent) (o : ConsumeOut)
    (L : Locals) (s : State) :
  keepsLooping (Consumed sq ev o) = true -> receiverObj L = true ->
  exists L', fst (dispatch outp sq ev L s) = Continue L' /\ receiverObj L' = true.
Proof.
  intros Hev Hr. unfold dispatch, resolveReceiver. rewrite Hr.
  destruct (skipCallbacks L); cbn [negb].
  { exists L. split; [reflexivity|exact Hr]. }
  destruct ev as [|action|hf tm|ty]; try discriminate Hev;
    unfold bind, ret, gets;
    match goal with |- context [deliver ?a ?b ?c ?d ?e] =>
      pose proof (deliver_receiverObj a b c d e) as HD;
      destruct (deliver a b c d e) as [L2 s2] end;
    exists L2; (split; [reflexivity|]); cbn [fst] in HD; rewrite HD;
    try exact Hr.
  destruct (_ && _); exact Hr.
Qed.

(** With the receiver in hand, an event that is not a focus event takes the
    loop to its next iteration. *)
Lemma eventBody_continues (outp : bool) (sq : Z) (ev : InputEvent) (o : ConsumeOut)
    (L : Locals) (s : State) :
  keepsLooping (Consumed sq ev o) = true -> receiverObj L = true ->
  exists L', fst (eventBody outp sq ev L s) = Continue L' /\ receiverObj L' = true.
Proof.
  intros Hev Hr. unfold eventBody. unfold bind at 1.
  destruct (dispatch_continues outp sq ev o L s Hev Hr) as (L' & HL' & Hrec).
  destruct (dispatch outp sq ev L s) as [f s1]. cbn [fst] in HL'. subst f.
  unfold bind, ret.
  destruct (when (skipCallbacks L') _ s1). exists L'. split; [reflexivity|exact Hrec].
Qed.

Lemma consumeLoop_nil (outp : bool) (L : Locals) (s : State) :
  snd (consumeLoop [] outp L s) = snd (onStatus WOULD_BLOCK (untouched s) L s).
Proof.
  cbn [consumeLoop]. unfold bind, gets, ret.
  destruct (onStatus WOULD_BLOCK (untouched s) L s). reflexivity.
Qed.

(** One call of the loop over answers that keep it looping: the motion-info
    notifications it emits are the changes among the flagged sub-kinds. *)
Lemma consumeLoop_motionInfos (answers : list ConsumeResult) (outp : bool)
    (L : Locals) (s : State) :
  receiverObj L = true \/ referent (handler s) = true ->
  forallb keepsLooping answers = true ->
  motionInfos (trace (snd (consumeLoop answers outp L s)))
    = motionInfos (trace s) ++ changes (signature s) (flaggedSubkinds answers).
Proof.
  revert L s; induction answers as [|r answers IH]; intros L s Hr Hall.
  - rewrite consumeLoop_nil, (onStatus_WOULD_BLOCK _ L s Hr).
    rewrite (notifyMotionInfo_quiet (untouched s) s (or_introl eq_refl)). cbn [snd].
    destruct (onWouldBlock_motion (attached L) s) as [_ ->].
    simpl. rewrite app_nil_r. reflexivity.
  - cbn [forallb] in Hall. apply andb_prop in Hall as [Hev Hall].
    destruct r as [sq ev o|st o]; [|discriminate Hev].
    rewrite consumeLoop_event.
    set (s0 := snd (consumed o answers s)).
    assert (Hr0 : receiverObj L = true \/ referent (handler s0) = true) by exact Hr.
    rewrite (onEvent_attached outp sq ev o L s0 Hr0).
    set (s1 := snd (notifyMotionInfo o s0)).
    destruct (eventBody_continues outp sq ev o (attached L) s1 Hev eq_refl)
      as (L' & HL' & Hrec).
    destruct (eventBody_motion outp sq ev (attached L) s1) as [Hsig Hmot].
    destruct (eventBody outp sq ev (attached L) s1) as [f s2]. cbn [fst snd] in *.
    subst f. rewrite (IH L' s2 (or_introl Hrec) Hall), Hsig, Hmot.
    cbn [flaggedSubkinds outOf]. subst s1.
    change (signature s) with (signature s0).
    change (trace s) with (trace s0).
    destruct (flag o) eqn:Hf.
    + destruct ((mLastMotionEventType s0 =? motionEventType o)
                && (mLastTouchMoveNum s0 =? touchMoveNum o)) eqn:Hs.
      * assert (Hs' : (fst (signature s0) =? fst (subkind o))
                      && (snd (signature s0) =? snd (subkind o)) = true) by exact Hs.
        rewrite (notifyMotionInfo_quiet o s0 (or_intror Hs)). cbn [snd changes].
        rewrite Hs'. reflexivity.
      * assert (Hs' : (fst (signature s0) =? fst (subkind o))
                      && (snd (signature s0) =? snd (subkind o)) = false) by exact Hs.
        rewrite (notifyMotionInfo_fires o s0 Hf Hs). cbn [changes].
        rewrite Hs'. simpl. rewrite motionInfos_app, <- app_assoc. reflexivity.
    + rewrite (notifyMotionInfo_quiet o s0 (or_introl Hf)). reflexivity.
Qed.

(** C9 (as stated, refuted): a changed sub-kind that the transport reports
    without raising [flag] is not notified.  From the initial signature
    (-1,-1), a motion event with sub-kind (1,0) and [flag = false] yields no
    [dispatchMotionEventInfo] and leaves the signature where it was. *)
Lemma motion_info_counterexample :
  let s := fresh (channel [Consumed 1 (MotionEvent 2) (unflagged 1 0)] neverBlocked)
             quietHandler in
  let s' := snd (consumeEvents false (-1) false s) in
  (mLastMotionEventType s, mLastTouchMoveNum s) = (-1, -1) /\
  count isMotionInfo (trace s') = 0%nat /\
  (mLastMotionEventType s', mLastTouchMoveNum s') = (-1, -1) /\
  trace s' = [AddFd 42 ALOOPER_EVENT_INPUT; DispatchInputEvent 1 (MotionEvent 2)].
Proof. cbv zeta. repeat split; reflexivity. Qed.

(** C9 (amended): in every iteration that reaches line 263 (the receiver is
    still there), [dispatchMotionEventInfo(motionEventType, touchMoveNum)]
    is called, and the pair becomes the remembered signature, exactly when
    the transport raised [flag] for this answer and the pair differs from
    the remembered signature; when [flag] is not raised, or the pair equals
    the signature, nothing is notified and the signature stays.  Over a
    whole call of [consumeEvents] on pending key and motion events, the
    notifications emitted are the changes among the sub-kinds reported with
    [flag] raised, the first being compared with the signature the call
    starts from: for (1,0), (1,0), (1,1), (2,0), all flagged, from
    (-1,-1), these are (1,0), (1,1), (2,0), exactly 3 notifications. *)
Theorem motion_info_notification (o : ConsumeOut) (L : Locals) (s : State)
    (cb : bool) (ft : Z) (outp : bool) :
  receiverObj L = true \/ referent (handler s) = true ->
  let s' := snd (preamble o L s) in
  let same := (mLastMotionEventType s =? motionEventType o)
              && (mLastTouchMoveNum s =? touchMoveNum o) in
  (flag o = true -> same = false ->
     trace s' = trace s ++ [DispatchMotionEventInfo (motionEventType o) (touchMoveNum o)] /\
     mLastMotionEventType s' = motionEventType o /\
     mLastTouchMoveNum s' = touchMoveNum o) /\
  (flag o = false \/ same = true ->
     trace s' = trace s /\
     mLastMotionEventType s' = mLastMotionEventType s /\
     mLastTouchMoveNum s' = mLastTouchMoveNum s) /\
  (referent (handler s) = true ->
   forallb keepsLooping (inbound (mInputConsumer s)) = true ->
   motionInfos (trace (snd (consumeEvents cb ft outp s)))
     = motionInfos (trace s)
         ++ changes (signature s) (flaggedSubkinds (inbound (mInputConsumer s)))).
Proof.
  intros H s' same. subst s'. rewrite (preamble_attached o L s H). cbn [snd].
  split; [|split].
  - intros Hf Hs. rewrite (notifyMotionInfo_fires o s Hf Hs). repeat split; reflexivity.
  - intros Hq. rewrite (notifyMotionInfo_quiet o s Hq). repeat split; reflexivity.
  - intros Href Hall. unfold consumeEvents, bind, gets, when.
    destruct cb; simpl;
      match goal with |- context [consumeLoop ?a ?b ?c ?d] =>
        rewrite (consumeLoop_motionInfos a b c d (or_intror Href) Hall) end;
      reflexivity.
Qed.

Lemma motion_info_notification_witness :
  let s := fresh (channel fourMoves neverBlocked) quietHandler in
  let s' := snd (consumeEvents false (-1) false s) in
  flaggedSubkinds (inbound (mInputConsumer s)) = [(1, 0); (1, 0); (1, 1); (2, 0)] /\
  signature s = (-1, -1) /\
  motionInfos (trace s') = [(1, 0); (1, 1); (2, 0)] /\
  count isMotionInfo (trace s') = 3%nat.
Proof.
  cbv zeta. split; [reflexivity|]. split; [reflexivity|]. split; [|reflexivity].
  destruct (motion_info_notification plain (mkLocals false false false)
              (fresh (channel fourMoves neverBlocked) quietHandler)
              false (-1) false (or_intror eq_refl)) as (_ & _ & H).
  rewrite (H eq_refl eq_refl). reflexivity.
Defined.

(** ** Focus events *)

(** A focus event outside skip-state. *)
Lemma onEvent_focus (outp : bool) (sq : Z) (hf tm : bool) (o : ConsumeOut)
    (L : Locals) (s : State) :
  skipCallbacks L = false ->
  receiverObj L = true \/ referent (handler s) = true ->
  onEvent outp sq (FocusEvent hf tm) o L s =
    (Return OK (attached L),
     snd (finishInputEvent sq true
            (snd (callOnFocusEvent hf tm (snd (notifyMotionInfo o s)))))).
Proof.
  intros Hk Hr. rewrite (onEvent_attached outp sq _ o L s Hr).
  apply eventBody_focus; [exact Hk|reflexivity].
Qed.

(** Any event in skip-state: no callback, a bare [sendFinishedSignal(seq,
    false)], and on to the next iteration. *)
Lemma onEvent_skipped (outp : bool) (sq : Z) (ev : InputEvent) (o : ConsumeOut)
    (L : Locals) (s : State) :
  skipCallbacks L = true ->
  receiverObj L = true \/ referent (handler s) = true ->
  onEvent outp sq ev o L s =
    (Continue (attached L),
     snd (sendFinishedSignal sq false (snd (notifyMotionInfo o s)))).
Proof.
  intros Hk Hr. rewrite (onEvent_attached outp sq ev o L s Hr).
  apply eventBody_skipped. exact Hk.
Qed.

(** C3 (as stated, refuted): in skip-state a focus event is not delivered.
    The dispatch of key event 1 throws; the focus event 2 that follows in
    the same call gets no [onFocusEvent], is acknowledged with
    [handled = false], and the loop goes on to the next [consume]. *)
Lemma focus_counterexample :
  let s := fresh (channel [Consumed 1 KeyEvent plain;
                           Consumed 2 (FocusEvent true false) plain]
                    neverBlocked) throwingHandler in
  let r := consumeEvents false (-1) false s in
  trace (snd r) =
    [AddFd 42 ALOOPER_EVENT_INPUT; DispatchInputEvent 1 KeyEvent;
     SendFinishedSignal 1 false OK; SendFinishedSignal 2 false OK] /\
  count isFocus (trace (snd r)) = 0%nat /\
  ~ In (mkFinish 2 true) (delivered (trace (snd r))).
Proof.
  cbv zeta. split; [reflexivity|]. split; [reflexivity|].
  simpl. intros [H|[H|[]]]; discriminate H.
Qed.

(** C3 (amended): for every focus event that [consumeEvents] decodes while
    the receiver is attached and skip-state is not active, [onFocusEvent]
    is invoked with [(hasFocus, inTouchMode)] right after the preamble of
    the iteration, then [finishInputEvent(seq, true)] runs, and
    [consumeEvents] returns [OK] at once: the remaining answers of the
    transport stay unread and [dispatchInputEvent] is not invoked.  In
    skip-state the focus event gets no callback; it is acknowledged with
    [handled = false] by a bare [sendFinishedSignal] and the loop goes on. *)
Theorem focus_event_dispatch (sq : Z) (hf tm : bool) (o : ConsumeOut)
    (rest : list ConsumeResult) (outp : bool) (L : Locals) (s : State) :
  receiverObj L = true \/ referent (handler s) = true ->
  let s1 := snd (preamble o L (snd (consumed o rest s))) in
  let r := consumeLoop (Consumed sq (FocusEvent hf tm) o :: rest) outp L s in
  (skipCallbacks L = false ->
     let s2 := snd (callOnFocusEvent hf tm s1) in
     trace s2 = trace s1 ++ [OnFocusEvent hf tm] /\
     snd r = snd (finishInputEvent sq true s2) /\
     (exists tl, trace (snd r)
        = trace s1 ++ OnFocusEvent hf tm :: SendFinishedSignal sq true (nextSend s) :: tl) /\
     fst (fst r) = OK /\
     inbound (mInputConsumer (snd r)) = rest /\
     count isDispatch (trace (snd r)) = count isDispatch (trace s) /\
     count isFocus (trace (snd r)) = S (count isFocus (trace s))) /\
  (skipCallbacks L = true ->
     r = consumeLoop rest outp (attached L) (snd (sendFinishedSignal sq false s1))).
Proof.
  intros Hr s1 r.
  assert (Hr0 : receiverObj L = true \/
                referent (handler (snd (consumed o rest s))) = true) by exact Hr.
  subst r s1. rewrite consumeLoop_event, (preamble_attached _ _ _ Hr0). cbn [snd].
  destruct (notifyMotionInfo_frame o (snd (consumed o rest s)))
    as (Hc & _ & _ & _ & _ & Hh & Ht).
  set (s0 := snd (consumed o rest s)) in *.
  set (s1 := snd (notifyMotionInfo o s0)) in *.
  split.
  - intros Hk. rewrite (onEvent_focus outp sq hf tm o L s0 Hk Hr0). fold s1.
    cbv zeta. cbn [fst snd]. rewrite callOnFocusEvent_eq.
    set (s2 := set_exception _ _).
    destruct (finishInputEvent_frame sq true s2) as (Hi & _ & Hd & Hfo & tl & Htl).
    assert (C0 : forall p, p (DispatchMotionEventInfo (motionEventType o) (touchMoveNum o)) = false ->
              count p (trace s1) = count p (trace s)).
    { intros p Hp. destruct Ht as [Ht|Ht]; rewrite Ht; [reflexivity|].
      rewrite count_app. simpl. rewrite Hp. unfold s0. simpl. lia. }
    split; [reflexivity|]. split; [reflexivity|]. split.
    { exists tl. rewrite Htl. subst s2. simpl. rewrite <- app_assoc.
      unfold nextSend. simpl. fold s1. rewrite Hc. reflexivity. }
    split; [reflexivity|]. split.
    { rewrite Hi. subst s2. simpl. fold s1. rewrite Hc. reflexivity. }
    split.
    + rewrite Hd. subst s2. simpl. rewrite count_app. simpl.
      rewrite (C0 isDispatch eq_refl). lia.
    + rewrite Hfo. subst s2. simpl. rewrite count_app. simpl.
      rewrite (C0 isFocus eq_refl). lia.
  - intros Hk. rewrite (onEvent_skipped outp sq _ o L s0 Hk Hr0). reflexivity.
Qed.

Lemma focus_event_dispatch_witness :
  let s := fresh (channel [Consumed 2 (FocusEvent true false) plain;
                           Consumed 3 KeyEvent plain] neverBlocked) quietHandler in
  let r := consumeLoop (inbound (mInputConsumer s)) false (mkLocals false false false) s in
  fst (fst r) = OK /\
  inbound (mInputConsumer (snd r)) = [Consumed 3 KeyEvent plain] /\
  count isDispatch (trace (snd r)) = 0%nat /\
  count isFocus (trace (snd r)) = 1%nat.
Proof.
  cbv zeta.
  destruct (focus_event_dispatch 2 true false plain [Consumed 3 KeyEvent plain] false
              (mkLocals false false false)
              (fresh (channel [Consumed 2 (FocusEvent true false) plain;
                               Consumed 3 KeyEvent plain] neverBlocked) quietHandler)
              (or_intror eq_refl)) as [H _].
  destruct (H eq_refl) as (_ & _ & _ & H1 & H2 & H3 & H4).
  split; [exact H1|]. split; [exact H2|]. split; [exact H3|exact H4].
Defined.

(** ** The auto-finish of skip-state *)

(** In skip-state the acknowledgement goes out through a bare
    [sendFinishedSignal] whose status is not looked at: when the transport
    answers [WOULD_BLOCK], the iteration leaves queue and interest mask as
    they were and nothing has reached the transport. *)
Lemma skipped_finish_dropped (outp : bool) (sq : Z) (ev : InputEvent) (L : Locals)
    (s : State) :
  skipCallbacks L = true -> nextSend s = WOULD_BLOCK ->
  let s' := snd (eventBody outp sq ev L s) in
  trace s' = trace s ++ [SendFinishedSignal sq false WOULD_BLOCK] /\
  mFinishQueue s' = mFinishQueue s /\
  mFdEvents s' = mFdEvents s /\
  delivered (trace s') = delivered (trace s).
Proof.
  intros Hk Hw. cbv zeta. rewrite (eventBody_skipped outp sq ev L s Hk). cbn [snd].
  destruct (sendFinishedSignal_eq sq false s) as (_ & Ht & Hq & Hf & _).
  rewrite Ht, Hq, Hf, Hw, delivered_app. simpl. rewrite app_nil_r.
  repeat split; reflexivity.
Qed.

(** C1 (the code at the failing input): the dispatch of key event 7 throws
    while the write path is full.  [consumeEvents] calls
    [mInputConsumer.sendFinishedSignal(7, false)] directly, gets
    [WOULD_BLOCK], and drops the status: nothing is queued, write-readiness
    is not asked for, and no later readiness notification or
    [consumeEvents] call sends the acknowledgement, although the write path
    is free again.  On the same transport the auto-finish of a focus
    event, which goes through [finishInputEvent], is queued and then
    delivered by the flush. *)
Theorem unhandled_ack_lost :
  let s := fresh (channel [Consumed 7 KeyEvent plain] blockedOnce) throwingHandler in
  let s1 := step (Readiness ALOOPER_EVENT_INPUT) s in
  let s2 := run [Readiness ALOOPER_EVENT_OUTPUT; Readiness ALOOPER_EVENT_INPUT;
                 ConsumeEvents true 0 true; Readiness ALOOPER_EVENT_OUTPUT] s1 in
  let t := fresh (channel [Consumed 8 (FocusEvent true false) plain] blockedOnce)
             quietHandler in
  let t1 := step (Readiness ALOOPER_EVENT_INPUT) t in
  let t2 := step (Readiness ALOOPER_EVENT_OUTPUT) t1 in
  (trace s1 = [AddFd 42 ALOOPER_EVENT_INPUT; DispatchInputEvent 7 KeyEvent;
               SendFinishedSignal 7 false WOULD_BLOCK] /\
   mFinishQueue s1 = [] /\
   mFdEvents s1 = ALOOPER_EVENT_INPUT /\
   nextSend s1 = OK /\
   trace s2 = trace s1 /\
   delivered (trace s2) = []) /\
  (mFinishQueue t1 = [mkFinish 8 true] /\
   mFdEvents t1 = Z.lor ALOOPER_EVENT_INPUT ALOOPER_EVENT_OUTPUT /\
   delivered (trace t2) = [mkFinish 8 true]).
Proof. cbv zeta. repeat split; reflexivity. Qed.

(** * Further properties of the code *)

(** ** The branches of handleEvent *)

Lemma error_bits (events : Z) :
  Z.testbit events 2 = true \/ Z.testbit events 3 = true ->
  Z.land events (Z.lor ALOOPER_EVENT_ERROR ALOOPER_EVENT_HANGUP) <> 0.
Proof.
  intros H E.
  assert (T2 : Z.testbit (Z.land events (Z.lor ALOOPER_EVENT_ERROR ALOOPER_EVENT_HANGUP)) 2 = false)
    by (rewrite E; apply Z.bits_0).
  assert (T3 : Z.testbit (Z.land events (Z.lor ALOOPER_EVENT_ERROR ALOOPER_EVENT_HANGUP)) 3 = false)
    by (rewrite E; apply Z.bits_0).
  rewrite Z.land_spec in T2, T3.
  change (Z.testbit (Z.lor ALOOPER_EVENT_ERROR ALOOPER_EVENT_HANGUP) 2) with true in T2.
  change (Z.testbit (Z.lor ALOOPER_EVENT_ERROR ALOOPER_EVENT_HANGUP) 3) with true in T3.
  rewrite andb_true_r in T2, T3. destruct H as [H|H]; congruence.
Qed.

Lemma no_bits (events m : Z) :
  Z.land events 15 = 0 -> Z.land 15 m = m -> Z.land events m = 0.
Proof.
  intros H Hm. rewrite <- Hm, Z.land_assoc, H. reflexivity.
Qed.

(** X1: a readiness mask with the error bit (bit 2) or the hangup bit
    (bit 3) makes [handleEvent] answer [0] without touching anything,
    whatever other bits are set and whatever is pending or queued; the
    [Looper] then drops the registration.  A mask with none of the four
    bits makes it answer [1], again without touching anything. *)
Theorem handleEvent_error_or_spurious (events : Z) (s : State) :
  (Z.testbit events 2 = true \/ Z.testbit events 3 = true ->
     handleEvent events s = (0, s) /\
     readiness events s = (0, set_looper None s)) /\
  (Z.land events 15 = 0 ->
     handleEvent events s = (1, s) /\ readiness events s = (1, s)).
Proof.
  split.
  - intros H. pose proof (error_bits events H) as E.
    assert (HE : handleEvent events s = (0, s)).
    { unfold handleEvent, nonzero.
      destruct (Z.eqb_spec (Z.land events (Z.lor ALOOPER_EVENT_ERROR ALOOPER_EVENT_HANGUP)) 0);
        [contradiction|reflexivity]. }
    split; [exact HE|]. unfold readiness, bind. rewrite HE. reflexivity.
  - intros H.
    assert (HE : handleEvent events s = (1, s)).
    { unfold handleEvent, nonzero.
      rewrite (no_bits events (Z.lor ALOOPER_EVENT_ERROR ALOOPER_EVENT_HANGUP) H eq_refl).
      rewrite (no_bits events ALOOPER_EVENT_INPUT H eq_refl).
      rewrite (no_bits events ALOOPER_EVENT_OUTPUT H eq_refl). reflexivity. }
    split; [exact HE|]. unfold readiness, bind. rewrite HE. reflexivity.
Qed.

Lemma handleEvent_error_or_spurious_witness :
  let s := ackRun [Finished 5 true]
             (fresh (channel [Consumed 7 KeyEvent plain] blockedOnce) quietHandler) in
  handleEvent (Z.lor ALOOPER_EVENT_HANGUP (Z.lor ALOOPER_EVENT_INPUT ALOOPER_EVENT_OUTPUT)) s
    = (0, s) /\
  handleEvent 16 s = (1, s).
Proof.
  cbv zeta. split.
  - apply (handleEvent_error_or_spurious
             (Z.lor ALOOPER_EVENT_HANGUP (Z.lor ALOOPER_EVENT_INPUT ALOOPER_EVENT_OUTPUT))).
    right. reflexivity.
  - apply (handleEvent_error_or_spurious 16). reflexivity.
Defined.

Lemma prefixQueue_core (q : list Finish) (s s' : State) :
  sameCore s s' -> q `prefix_of` mFinishQueue s -> q `prefix_of` mFinishQueue s'.
Proof. intros (-> & _). tauto. Qed.

Lemma prefixQueue_finish (q : list Finish) (sq : Z) (h : bool) :
  preserves (fun s => q `prefix_of` mFinishQueue s) (finishInputEvent sq h).
Proof.
  intros s H. destruct (finishInputEvent_acked sq h s) as [_ ->].
  apply prefix_app_r, H.
Qed.

Lemma prefixQueue_motion (q : list Finish) (o : ConsumeOut) :
  preserves (fun s => q `prefix_of` mFinishQueue s) (notifyMotionInfo o).
Proof.
  intros s H. destruct (notifyMotionInfo_frame o s) as (_ & _ & -> & _). exact H.
Qed.

(** X2: [consumeEvents] never takes a record out of [mFinishQueue]: the
    queue it finds is a prefix of the queue it leaves.  Since
    [handleEvent] tests the read bit before the write bit, a notification
    that reports both read- and write-readiness is handled exactly like a
    read-readiness notification, and flushes nothing. *)
Theorem read_readiness_flushes_nothing (events : Z) (cb : bool) (ft : Z)
    (outp : bool) (s : State) :
  mFinishQueue s `prefix_of` mFinishQueue (snd (consumeEvents cb ft outp s)) /\
  (Z.land events (Z.lor ALOOPER_EVENT_ERROR ALOOPER_EVENT_HANGUP) = 0 ->
   Z.land events ALOOPER_EVENT_INPUT <> 0 ->
   handleEvent events s = handleEvent ALOOPER_EVENT_INPUT s /\
   mFinishQueue s `prefix_of` mFinishQueue (snd (handleEvent events s))).
Proof.
  assert (H : forall cb ft outp,
            mFinishQueue s `prefix_of` mFinishQueue (snd (consumeEvents cb ft outp s))).
  { intros cb' ft' outp'.
    apply (preserves_consumeEvents _ (prefixQueue_core (mFinishQueue s))
             (prefixQueue_finish (mFinishQueue s))
             (prefixQueue_motion (mFinishQueue s))).
    reflexivity. }
  split; [apply H|].
  intros E1 E2. rewrite (handleEvent_input events s E1 E2).
  rewrite (handleEvent_input ALOOPER_EVENT_INPUT s eq_refl ltac:(discriminate)).
  split; [reflexivity|]. cbv zeta. cbn [snd]. apply H.
Qed.

Lemma read_readiness_flushes_nothing_witness :
  let s := ackRun [Finished 5 true]
             (fresh (channel [Consumed 7 (FocusEvent true true) plain] blockedOnce)
                quietHandler) in
  let s' := snd (handleEvent (Z.lor ALOOPER_EVENT_INPUT ALOOPER_EVENT_OUTPUT) s) in
  mFinishQueue s = [mkFinish 5 true] /\
  mFinishQueue s `prefix_of` mFinishQueue s'.
Proof.
  cbv zeta. split; [reflexivity|].
  apply (read_readiness_flushes_nothing
           (Z.lor ALOOPER_EVENT_INPUT ALOOPER_EVENT_OUTPUT) false 0 false);
    [reflexivity|discriminate].
Defined.

(** ** The flush, whatever the transport answers *)

Lemma flush_exception (s : State) (f : Finish) :
  let k := okPrefix (sendResult (mInputConsumer s)) (sendCount (mInputConsumer s))
             (mFinishQueue s) in
  let status := sendResult (mInputConsumer s) (sendCount (mInputConsumer s) + k)%nat in
  mFinishQueue s !! k = Some f ->
  exceptionPending (snd (flush s)) =
    if (status =? WOULD_BLOCK) || (status =? DEAD_OBJECT)
    then exceptionPending s else false.
Proof.
  intros k status Hf.
  pose proof (flushFrom_spec (mFinishQueue s) 0 s) as HS. cbv zeta in HS.
  fold k in HS. unfold flush, bind, gets.
  destruct (flushFrom (mFinishQueue s) 0 s) as [res s1].
  destruct HS as (H1 & _ & _ & _ & _ & H6 & _). cbn [fst snd] in *.
  assert (Hlt : (k < length (mFinishQueue s))%nat) by (apply lookup_lt_is_Some; eauto).
  apply Nat.ltb_lt in Hlt. rewrite Hlt in H1. subst res. cbn [Nat.add].
  fold status. run.
  destruct (status =? WOULD_BLOCK); simpl; [exact H6|].
  unfold neq. destruct (status =? DEAD_OBJECT); simpl; [exact H6|reflexivity].
Qed.

(** X3: when the flush meets a hard error (a status that is neither [OK]
    nor [WOULD_BLOCK]) at record [k], the [k] records sent before it leave
    the queue, the failing record and the later ones stay, and the callback
    answers [0], so that the [Looper] drops the registration; [mFdEvents]
    is left as it was.  Unless the status is [DEAD_OBJECT], a
    [RuntimeException] carrying the status is thrown and at once raised and
    cleared, so that no exception is pending afterwards. *)
Theorem flush_hard_error (events : Z) (s : State) (k : nat) (f : Finish) :
  Z.land events (Z.lor ALOOPER_EVENT_ERROR ALOOPER_EVENT_HANGUP) = 0 ->
  Z.land events ALOOPER_EVENT_INPUT = 0 ->
  Z.land events ALOOPER_EVENT_OUTPUT <> 0 ->
  (forall j, (j < k)%nat ->
     sendResult (mInputConsumer s) (sendCount (mInputConsumer s) + j)%nat = OK) ->
  mFinishQueue s !! k = Some f ->
  let status := sendResult (mInputConsumer s) (sendCount (mInputConsumer s) + k)%nat in
  status <> OK -> status <> WOULD_BLOCK ->
  let s' := snd (handleEvent events s) in
  fst (handleEvent events s) = 0 /\
  looper (snd (readiness events s)) = None /\
  mFinishQueue s' = drop k (mFinishQueue s) /\
  mFdEvents s' = mFdEvents s /\
  trace s' = trace s ++ sentOK (take k (mFinishQueue s)) ++
    SendFinishedSignal (seq f) (handled f) status ::
    (if status =? DEAD_OBJECT then [] else [ThrowRuntimeException status]) /\
  exceptionPending s' = (if status =? DEAD_OBJECT then exceptionPending s else false).
Proof.
  intros E1 E2 E3 Hok Hf status N1 N2 s'. subst s'.
  assert (K : okPrefix (sendResult (mInputConsumer s)) (sendCount (mInputConsumer s))
                (mFinishQueue s) = k).
  { apply okPrefix_first; [|exact Hok|intros _; exact N1].
    apply Nat.lt_le_incl, lookup_lt_is_Some. eauto. }
  unfold readiness, bind. rewrite (handleEvent_output events s E1 E2 E3).
  destruct (flush_spec s) as [_ Hstop]. pose proof (flush_exception s f) as Hx.
  cbv zeta in Hx. rewrite K in Hstop, Hx.
  destruct (Hstop f Hf) as (_ & Hr & Hq & Hfd & _ & Ht). specialize (Hx Hf).
  fold status in Hr, Ht, Hx.
  destruct (Z.eqb_spec status WOULD_BLOCK) as [W|_]; [contradiction|].
  cbn [orb] in Ht, Hx.
  destruct (flush s) as [r s1]. cbn [fst snd] in *. subst r. cbn.
  repeat split; assumption.
Qed.

Lemma flush_hard_error_witness :
  let sr := fun n => match n with
                     | 0%nat | 1%nat => WOULD_BLOCK
                     | 2%nat => OK
                     | _ => NO_MEMORY
                     end in
  let s := ackRun [Finished 5 true; Finished 6 false]
             (fresh (channel [] sr) quietHandler) in
  let s' := snd (handleEvent ALOOPER_EVENT_OUTPUT s) in
  fst (handleEvent ALOOPER_EVENT_OUTPUT s) = 0 /\
  mFinishQueue s' = [mkFinish 6 false] /\
  mFdEvents s' = Z.lor ALOOPER_EVENT_INPUT ALOOPER_EVENT_OUTPUT /\
  exceptionPending s' = false.
Proof.
  cbv zeta.
  destruct (flush_hard_error ALOOPER_EVENT_OUTPUT
              (ackRun [Finished 5 true; Finished 6 false]
                 (fresh (channel [] (fun n => match n with
                                              | 0%nat | 1%nat => WOULD_BLOCK
                                              | 2%nat => OK
                                              | _ => NO_MEMORY
                                              end)) quietHandler))
              1%nat (mkFinish 6 false) eq_refl eq_refl ltac:(discriminate)
              ltac:(intros [|j] Hj; [reflexivity|lia]) eq_refl
              ltac:(discriminate) ltac:(discriminate))
    as (H1 & _ & H3 & H4 & _ & H6).
  split; [exact H1|]. split; [exact H3|]. split; [exact H4|exact H6].
Defined.

(** X4: a write-readiness flush neither loses, nor duplicates, nor reorders
    acknowledgements, whatever the transport answers (hard errors
    included): some number [k] of records from the front of the queue are
    accepted by the transport, in queue order, and exactly those leave the
    queue. *)
Theorem flush_conserves (events : Z) (s : State) :
  Z.land events (Z.lor ALOOPER_EVENT_ERROR ALOOPER_EVENT_HANGUP) = 0 ->
  Z.land events ALOOPER_EVENT_INPUT = 0 ->
  Z.land events ALOOPER_EVENT_OUTPUT <> 0 ->
  let s' := snd (handleEvent events s) in
  exists k,
    (k <= length (mFinishQueue s))%nat /\
    delivered (trace s') = delivered (trace s) ++ take k (mFinishQueue s) /\
    mFinishQueue s' = drop k (mFinishQueue s).
Proof.
  intros E1 E2 E3 s'. subst s'. rewrite (handleEvent_output events s E1 E2 E3).
  destruct (flush_spec s) as [Hall Hstop].
  pose proof (okPrefix_le (sendResult (mInputConsumer s))
                (sendCount (mInputConsumer s)) (mFinishQueue s)) as Hle.
  set (k := okPrefix _ _ _) in *. exists k. split; [exact Hle|].
  destruct (mFinishQueue s !! k) as [f|] eqn:Hf.
  - destruct (Hstop f eq_refl) as (Hne & _ & Hq & _ & _ & Ht).
    split; [|exact Hq].
    rewrite Ht, !delivered_app, delivered_sentOK. simpl.
    destruct (Z.eqb_spec (sendResult (mInputConsumer s) (sendCount (mInputConsumer s) + k)%nat) OK);
      [contradiction|].
    destruct (_ || _); simpl; rewrite app_nil_r; reflexivity.
  - assert (K : k = length (mFinishQueue s))
      by (apply lookup_ge_None in Hf; lia).
    destruct (Hall K) as (_ & Hq & _ & Ht & _).
    rewrite Hq, Ht, !delivered_app, delivered_sentOK, K, firstn_all, drop_all.
    split; [|reflexivity].
    destruct (mFdEvents s =? ALOOPER_EVENT_INPUT); simpl; rewrite app_nil_r; reflexivity.
Qed.

Lemma flush_conserves_witness :
  let s := ackRun [Finished 5 true; Finished 6 false]
             (fresh (channel [] (fun n => match n with
                                          | 0%nat | 1%nat => WOULD_BLOCK
                                          | _ => OK
                                          end)) quietHandler) in
  let s' := snd (handleEvent ALOOPER_EVENT_OUTPUT s) in
  exists k,
    (k <= length (mFinishQueue s))%nat /\
    delivered (trace s') = delivered (trace s) ++ take k (mFinishQueue s) /\
    mFinishQueue s' = drop k (mFinishQueue s).
Proof.
  cbv zeta.
  exact (flush_conserves ALOOPER_EVENT_OUTPUT _ eq_refl eq_refl ltac:(discriminate)).
Defined.

(** ** Acknowledgements are neither invented nor duplicated *)

Lemma ackStep_submseteq (op : AckOp) (s : State) :
  acked (ackStep op s) ⊆+ acked s ++ requested [op].
Proof.
  destruct op as [sq h|]; simpl.
  - destruct (finishInputEvent_acked sq h s) as [Hd Hq]. unfold acked.
    rewrite Hd, Hq.
    destruct (Z.eqb_spec (nextSend s) OK) as [E|E].
    + rewrite E. simpl. rewrite app_nil_r.
      apply Permutation_submseteq. rewrite <- !app_assoc.
      apply Permutation_app_head, Permutation_app_comm.
    + destruct (Z.eqb_spec (nextSend s) WOULD_BLOCK) as [W|W].
      * rewrite app_nil_r, app_assoc. reflexivity.
      * rewrite !app_nil_r. apply submseteq_inserts_r. reflexivity.
  - rewrite handleEvent_OUTPUT_flush, flush_acked, app_nil_r. reflexivity.
Qed.

(** X5: in every interleaving of [finishInputEvent] calls and
    write-readiness flushes, with any transport, the acknowledgements
    accepted by the transport together with those still queued are, as a
    multiset, among what was accepted and queued before plus the requests:
    no acknowledgement is invented, and none is sent or queued twice. *)
Theorem acknowledgements_never_duplicated (ops : list AckOp) (s : State) :
  acked (ackRun ops s) ⊆+ acked s ++ requested ops.
Proof.
  revert s; induction ops as [|op ops IH]; intros s.
  - simpl. rewrite app_nil_r. reflexivity.
  - cbn [ackRun]. etransitivity; [apply IH|].
    assert (R : requested (op :: ops) = requested [op] ++ requested ops)
      by (destruct op; reflexivity).
    rewrite R, app_assoc. apply submseteq_skips_r, ackStep_submseteq.
Qed.

(** ** Interest and disposal *)

(** X12: from [initialize] on and as long as [dispose] has not been called,
    the interest mask the receiver asks for is either read-only or
    read+write: read-readiness interest is never given up, and no other
    mask is ever requested. *)
Theorem read_interest_kept (c : InputConsumer) (h : Handler) (ops : list Op) :
  forallb steady ops = true ->
  let s := run ops (fresh c h) in
  (mFdEvents s = ALOOPER_EVENT_INPUT \/
   mFdEvents s = Z.lor ALOOPER_EVENT_INPUT ALOOPER_EVENT_OUTPUT) /\
  Z.land (mFdEvents s) ALOOPER_EVENT_INPUT <> 0.
Proof.
  intros Hops s.
  destruct (steadyState_run ops (fresh c h) Hops (steadyState_fresh c h)) as [Ha _].
  fold s in Ha.
  destruct Ha as [[_ E]|[_ E]]; rewrite E; (split; [tauto|discriminate]).
Qed.

Lemma read_interest_kept_witness :
  let ops := [FinishInputEvent 5 true; Readiness ALOOPER_EVENT_OUTPUT;
              Readiness ALOOPER_EVENT_HANGUP; FinishInputEvent 6 true] in
  let s := run ops (fresh (channel [] blockedOnce) quietHandler) in
  forallb steady ops = true /\
  Z.land (mFdEvents s) ALOOPER_EVENT_INPUT <> 0.
Proof.
  cbv zeta. split; [reflexivity|].
  apply (read_interest_kept (channel [] blockedOnce) quietHandler
           [FinishInputEvent 5 true; Readiness ALOOPER_EVENT_OUTPUT;
            Readiness ALOOPER_EVENT_HANGUP; FinishInputEvent 6 true] eq_refl).
Defined.

(** X16: [dispose()] is not final.  On a disposed receiver ([mFdEvents]
    is [0]) a later [finishInputEvent] that finds the queue empty and the
    write path full registers the descriptor again, for read+write; and a
    write-readiness callback that still arrives and gets every queued
    record accepted registers it again for read.  Either way the [Looper]
    holds a registration for the disposed receiver. *)
Theorem disposed_receiver_registers_again (sq : Z) (h : bool) (s : State) :
  mFdEvents s = 0 ->
  (nextSend s = WOULD_BLOCK -> mFinishQueue s = [] ->
     let s' := snd (finishInputEvent sq h s) in
     looper s' = Some (Z.lor ALOOPER_EVENT_INPUT ALOOPER_EVENT_OUTPUT) /\
     trace s' = trace s ++
       [SendFinishedSignal sq h WOULD_BLOCK;
        AddFd (getFd (mInputConsumer s)) (Z.lor ALOOPER_EVENT_INPUT ALOOPER_EVENT_OUTPUT)]) /\
  ((forall j, (j < length (mFinishQueue s))%nat ->
      sendResult (mInputConsumer s) (sendCount (mInputConsumer s) + j)%nat = OK) ->
     let s' := snd (handleEvent ALOOPER_EVENT_OUTPUT s) in
     looper s' = Some ALOOPER_EVENT_INPUT /\
     mFdEvents s' = ALOOPER_EVENT_INPUT /\
     trace s' = trace s ++ sentOK (mFinishQueue s)
                  ++ [AddFd (getFd (mInputConsumer s)) ALOOPER_EVENT_INPUT]).
Proof.
  intros Hd. split.
  - intros W Q s'. subst s'. rewrite (finishInputEvent_blocked sq h s W). cbn [snd].
    rewrite Q. rewrite setFdEvents_changed; [|simpl; rewrite Hd; discriminate|discriminate].
    simpl. unfold nextSend in W. rewrite W, <- app_assoc. split; reflexivity.
  - intros Hok s'. subst s'. rewrite handleEvent_OUTPUT_flush.
    destruct (flush_spec s) as [Hall _].
    assert (K : okPrefix (sendResult (mInputConsumer s)) (sendCount (mInputConsumer s))
                  (mFinishQueue s) = length (mFinishQueue s)).
    { apply okPrefix_first; [lia|exact Hok|lia]. }
    destruct (Hall K) as (_ & _ & Hf & Ht & Hl).
    rewrite Hd in Ht, Hl. simpl in Ht, Hl. repeat split; assumption.
Qed.

Lemma disposed_receiver_registers_again_witness :
  let s := snd (dispose (fresh (channel [] blockedOnce) quietHandler)) in
  let s' := snd (finishInputEvent 5 true s) in
  looper s = None /\
  looper s' = Some (Z.lor ALOOPER_EVENT_INPUT ALOOPER_EVENT_OUTPUT).
Proof.
  cbv zeta. split; [reflexivity|].
  apply (disposed_receiver_registers_again 5 true
           (snd (dispose (fresh (channel [] blockedOnce) quietHandler))) eq_refl);
    reflexivity.
Defined.

(** ** What the pieces of consumeEvents write *)

(** Each piece of [consumeEvents] writes only certain members and emits
    only certain effects: a property that does not depend on those is kept.
    The hypotheses are introduced where the first piece needs them, so
    that a property may be carried through [eventBody], say, without being
    insensitive to what [onWouldBlock] writes. *)
Section Keeping.

Variable P : State -> Prop.
Variable quiet : Effect -> bool.

Hypothesis P_emit : forall e s, quiet e = true -> P s -> P (emit e s).
Hypothesis P_consumer : forall c s, P s -> P (set_consumer c s).
Hypothesis P_queue : forall q s, P s -> P (set_queue q s).
Hypothesis P_fdEvents : forall e s, P s -> P (set_fdEvents e s).
Hypothesis P_looper : forall l s, P s -> P (set_looper l s).
Hypothesis quiet_send : forall sq h st, quiet (SendFinishedSignal sq h st) = true.
Hypothesis quiet_addFd : forall fd e, quiet (AddFd fd e) = true.

Lemma keeps_send (sq : Z) (h : bool) : preserves P (sendFinishedSignal sq h).
Proof.
  intros s H. unfold sendFinishedSignal. simpl.
  apply P_emit; [apply quiet_send|]. apply P_consumer, H.
Qed.

Lemma keeps_setFdEvents (e : Z) : e <> 0 -> preserves P (setFdEvents e).
Proof.
  intros He s H. unfold setFdEvents, neq, nonzero, addFd; run.
  destruct (mFdEvents s =? e); simpl; [exact H|].
  destruct (Z.eqb_spec e 0); [contradiction|]. simpl.
  apply P_emit; [apply quiet_addFd|]. apply P_looper, P_fdEvents, H.
Qed.

Lemma keeps_finishInputEvent (sq : Z) (h : bool) : preserves P (finishInputEvent sq h).
Proof.
  unfold finishInputEvent.
  apply preserves_bind; [apply keeps_send|]. intros status.
  destruct (nonzero status); [|apply preserves_ret].
  destruct (status =? WOULD_BLOCK); [|apply preserves_ret].
  apply preserves_bind; [intros s H; simpl; apply P_queue, H|]. intros _.
  apply preserves_bind; [apply preserves_gets|]. intros size.
  apply preserves_bind; [|intros _; apply preserves_ret].
  apply preserves_when, keeps_setFdEvents. discriminate.
Qed.

Hypothesis P_exception : forall b s, P s -> P (set_exception b s).
Hypothesis quiet_dispatch : forall sq ev, quiet (DispatchInputEvent sq ev) = true.
Hypothesis quiet_focus : forall hf tm, quiet (OnFocusEvent hf tm) = true.

Lemma keeps_raise (b : bool) : preserves P (raise b).
Proof. intros s H. simpl. apply P_exception, H. Qed.

Lemma keeps_emit (e : Effect) : quiet e = true -> preserves P (modify (emit e)).
Proof. intros He s H. simpl. apply P_emit; assumption. Qed.

(** The handler's calls of [nativeFinishInputEvent] may throw: they keep a
    property that does not depend on the exceptions thrown. *)
Lemma keeps_reenter (fs : list Finish) :
  (forall st, quiet (ThrowRuntimeException st) = true) ->
  preserves P (reenter fs).
Proof.
  intros quiet_throw.
  induction fs as [|f fs IH]; simpl; [apply preserves_ret|].
  apply preserves_bind; [|intros _; exact IH].
  unfold fromCallback, nativeFinishInputEvent, jniThrowRuntimeException, ExceptionCheck.
  apply preserves_bind; [apply preserves_gets|]. intros pending.
  apply preserves_bind; [|intros _; intros s H; simpl; apply P_exception, H].
  apply preserves_bind; [apply keeps_finishInputEvent|]. intros status.
  apply preserves_when.
  apply preserves_bind; [apply keeps_emit, quiet_throw|intros _; apply keeps_raise].
Qed.

(** What the handler does from inside [dispatchInputEvent] is the one place
    where code other than that of [consumeEvents] runs during the call. *)
Hypothesis P_callback : forall sq s,
  P s -> P (snd (reenter (finishes (onDispatchInputEvent (handler s) sq)) s)).

Lemma keeps_callDispatchInputEvent (sq : Z) (ev : InputEvent) :
  preserves P (callDispatchInputEvent sq ev).
Proof.
  intros s H. unfold callDispatchInputEvent, bind, modify, gets, raise. cbn [snd].
  pose proof (P_callback sq (emit (DispatchInputEvent sq ev) s)
                (P_emit _ _ (quiet_dispatch sq ev) H)) as H'.
  change (handler (emit (DispatchInputEvent sq ev) s)) with (handler s) in H'.
  destruct (reenter _ _) as [[] s1]. cbn [snd] in *. apply P_exception, H'.
Qed.

Ltac keep :=
  repeat first
    [ solve [auto 3]
    | apply preserves_ret
    | apply preserves_gets
    | apply keeps_send
    | apply keeps_finishInputEvent
    | apply keeps_raise
    | apply keeps_emit
    | apply preserves_when
    | apply preserves_bind; [|intros ?]
    | match goal with
      | |- preserves _ (if ?b then _ else _) => destruct b
      | |- preserves _ (match ?x with _ => _ end) => destruct x
      end ].

Lemma keeps_resolveReceiver (L : Locals) : preserves P (resolveReceiver L).
Proof. unfold resolveReceiver; keep. Qed.

Lemma keeps_deliver (sq : Z) (ev : InputEvent) (obj : bool) (L : Locals) :
  preserves P (deliver sq ev obj L).
Proof.
  unfold deliver, ExceptionCheck.
  pose proof keeps_callDispatchInputEvent. keep.
Qed.

Lemma keeps_eventBody (outp : bool) (sq : Z) (ev : InputEvent) (L : Locals) :
  preserves P (eventBody outp sq ev L).
Proof.
  unfold eventBody, dispatch, callOnFocusEvent.
  pose proof keeps_resolveReceiver. pose proof keeps_deliver.
  keep.
Qed.

Hypothesis P_lastMotion : forall t n s, P s -> P (set_lastMotion t n s).
Hypothesis quiet_motion : forall t n, quiet (DispatchMotionEventInfo t n) = true.

Lemma keeps_notifyMotionInfo (o : ConsumeOut) : preserves P (notifyMotionInfo o).
Proof.
  unfold notifyMotionInfo, callDispatchMotionEventInfo.
  assert (forall t n, preserves P (modify (set_lastMotion t n)))
    by (intros t n s H; simpl; apply P_lastMotion, H).
  keep.
Qed.

Lemma keeps_preamble (o : ConsumeOut) (L : Locals) : preserves P (preamble o L).
Proof.
  unfold preamble.
  pose proof keeps_resolveReceiver. pose proof keeps_notifyMotionInfo. keep.
Qed.

Lemma keeps_onEvent (outp : bool) (sq : Z) (ev : InputEvent) (o : ConsumeOut)
    (L : Locals) :
  preserves P (onEvent outp sq ev o L).
Proof.
  unfold onEvent. pose proof keeps_preamble. pose proof keeps_eventBody. keep.
Qed.

Lemma keeps_consumed (o : ConsumeOut) (rest : list ConsumeResult) :
  preserves P (consumed o rest).
Proof. intros s H. simpl. apply P_consumer, H. Qed.

Hypothesis P_pending : forall b s, P s -> P (set_pending b s).
Hypothesis quiet_batch : forall src, quiet (OnBatchedInputEventPending src) = true.

Lemma keeps_onStatus (st : status_t) (o : ConsumeOut) (L : Locals) :
  preserves P (onStatus st o L).
Proof.
  unfold onStatus, onWouldBlock, callOnBatchedInputEventPending, ExceptionCheck.
  assert (forall b, preserves P (modify (set_pending b)))
    by (intros b s H; simpl; apply P_pending, H).
  pose proof keeps_resolveReceiver. pose proof keeps_preamble. keep.
Qed.

Lemma keeps_consumeLoop (answers : list ConsumeResult) (outp : bool) (L : Locals) :
  preserves P (consumeLoop answers outp L).
Proof.
  revert L; induction answers as [|r answers IH]; intros L; simpl.
  - pose proof keeps_onStatus. keep.
  - pose proof keeps_onStatus. pose proof keeps_onEvent. pose proof keeps_consumed.
    destruct r; keep.
Qed.

Lemma keeps_consumeEvents (cb : bool) (ft : Z) (outp : bool) :
  preserves P (consumeEvents cb ft outp).
Proof.
  unfold consumeEvents.
  assert (forall b, preserves P (modify (set_pending b)))
    by (intros b s H; simpl; apply P_pending, H).
  pose proof keeps_consumeLoop. keep.
Qed.

End Keeping.

(** ** The status of consumeEvents *)

Lemma consumeLoop_finalized (answers : list ConsumeResult) (outp : bool)
    (L : Locals) (s : State) :
  receiverObj L = false -> referent (handler s) = false ->
  consumeLoop answers outp L s =
    ((DEAD_OBJECT, consumedBatch L),
     match answers with
     | [] => s
     | r :: rest => snd (consumed (outOf r) rest s)
     end).
Proof.
  intros H1 H2.
  destruct answers as [|[sq ev o|st o] rest]; cbn [consumeLoop outOf];
    unfold bind, gets, consumed, modify, onStatus, onEvent, preamble, bind;
    cbn [snd].
  - rewrite (resolveReceiver_finalized L s H1 H2). reflexivity.
  - match goal with |- context [resolveReceiver ?l ?x] =>
      rewrite (resolveReceiver_finalized l x H1 H2) end. reflexivity.
  - match goal with |- context [resolveReceiver ?l ?x] =>
      rewrite (resolveReceiver_finalized l x H1 H2) end. reflexivity.
Qed.

(** X6: when the receiver object has been finalized (the weak reference
    does not resolve), [consumeEvents] returns [DEAD_OBJECT] after its first
    call of [consume]: no callback is invoked and nothing is sent or
    queued, but the answer that call obtained has left the transport, so a
    decoded event is dropped without acknowledgement. *)
Theorem consumeEvents_finalized (cb : bool) (ft : Z) (outp : bool) (s : State) :
  referent (handler s) = false ->
  let r := consumeEvents cb ft outp s in
  fst r = (DEAD_OBJECT, false) /\
  trace (snd r) = trace s /\
  mFinishQueue (snd r) = mFinishQueue s /\
  signature (snd r) = signature s /\
  inbound (mInputConsumer (snd r)) = tail (inbound (mInputConsumer s)) /\
  mBatchedInputEventPending (snd r)
    = (if cb then false else mBatchedInputEventPending s).
Proof.
  intros H. cbv zeta. unfold consumeEvents, bind, when, gets, modify, ret.
  assert (E : forall s0, handler s0 = handler s -> mInputConsumer s0 = mInputConsumer s ->
            consumeLoop (inbound (mInputConsumer s)) outp (mkLocals false false false) s0
              = ((DEAD_OBJECT, false),
                 match inbound (mInputConsumer s) with
                 | [] => s0
                 | r :: rest => snd (consumed (outOf r) rest s0)
                 end)).
  { intros s0 Hh Hc. apply consumeLoop_finalized; [reflexivity|]. rewrite Hh. exact H. }
  destruct cb; cbn [set_pending mInputConsumer];
    rewrite E by reflexivity;
    destruct (inbound (mInputConsumer s)) as [|r rest] eqn:Ei;
    cbn; rewrite ?Ei; repeat split; reflexivity.
Qed.

Lemma consumeEvents_finalized_witness :
  let s := fresh (channel [Consumed 7 KeyEvent plain; Consumed 8 KeyEvent plain]
                    neverBlocked) finalizedHandler in
  let r := consumeEvents false (-1) false s in
  fst r = (DEAD_OBJECT, false) /\
  trace (snd r) = trace s /\
  inbound (mInputConsumer (snd r)) = [Consumed 8 KeyEvent plain].
Proof.
  cbv zeta.
  destruct (consumeEvents_finalized false (-1) false
              (fresh (channel [Consumed 7 KeyEvent plain; Consumed 8 KeyEvent plain]
                        neverBlocked) finalizedHandler) eq_refl)
    as (H1 & H2 & _ & _ & H5 & _).
  split; [exact H1|]. split; [exact H2|exact H5].
Defined.

Lemma onWouldBlock_OK (L : Locals) (s : State) :
  receiverObj L = true -> fst (fst (onWouldBlock L s)) = OK.
Proof.
  intros Hr. unfold onWouldBlock, bind, gets, resolveReceiver. rewrite Hr.
  destruct (negb (skipCallbacks L) && negb (mBatchedInputEventPending s)
            && pendingBatch (mInputConsumer s)); [|reflexivity].
  unfold ret, modify, callOnBatchedInputEventPending, ExceptionCheck, bind, gets, raise, when.
  simpl. destruct (exceptionPending s || _); reflexivity.
Qed.

Lemma onStatus_attached (st : status_t) (o : ConsumeOut) (L : Locals) (s : State) :
  receiverObj L = true \/ referent (handler s) = true ->
  onStatus st o L s =
    (if neq st OK && neq st WOULD_BLOCK then ret (st, attached L)
     else if st =? WOULD_BLOCK then onWouldBlock (attached L)
     else ret (st, attached L)) (snd (notifyMotionInfo o s)).
Proof.
  intros Hr. unfold onStatus. unfold bind at 1.
  rewrite (preamble_attached o L s Hr). reflexivity.
Qed.

Lemma onStatus_status (st : status_t) (o : ConsumeOut) (L : Locals) (s : State) :
  receiverObj L = true \/ referent (handler s) = true ->
  fst (fst (onStatus st o L s)) = OK \/ fst (fst (onStatus st o L s)) = st.
Proof.
  intros Hr. rewrite (onStatus_attached st o L s Hr). unfold neq.
  destruct (Z.eqb_spec st OK) as [E|E]; cbn [negb andb].
  - destruct (st =? WOULD_BLOCK).
    + left. apply onWouldBlock_OK. reflexivity.
    + right. reflexivity.
  - destruct (Z.eqb_spec st WOULD_BLOCK) as [W|W]; cbn [negb].
    + left. apply onWouldBlock_OK. reflexivity.
    + right. reflexivity.
Qed.

(** Where an iteration with the receiver in hand can lead: to [return OK]
    (a focus event), or to the next iteration, still with the receiver. *)
Lemma eventBody_flow (outp : bool) (sq : Z) (ev : InputEvent) (L : Locals) (s : State) :
  receiverObj L = true ->
  match fst (eventBody outp sq ev L s) with
  | Return st _ => st = OK
  | Continue L' => receiverObj L' = true
  end.
Proof.
  intros Hr. unfold eventBody. unfold bind at 1.
  assert (D : match fst (dispatch outp sq ev L s) with
              | Return st _ => st = OK
              | Continue L' => receiverObj L' = true
              end).
  { unfold dispatch, resolveReceiver. rewrite Hr.
    destruct (skipCallbacks L); cbn [negb]; [exact Hr|].
    destruct ev as [|action|hf tm|ty]; unfold bind, ret, gets;
      try (match goal with |- context [deliver ?a ?b ?c ?d ?e] =>
             pose proof (deliver_receiverObj a b c d e) as HD;
             destruct (deliver a b c d e) as [L2 s2] end;
           cbn [fst] in *; rewrite HD; try exact Hr;
           destruct (_ && _); exact Hr).
    destruct (callOnFocusEvent hf tm s) as [[] s1].
    destruct (finishInputEvent sq true s1). reflexivity. }
  destruct (dispatch outp sq ev L s) as [[st L'|L'] s1]; cbn [fst] in D.
  - exact D.
  - unfold bind, ret. destruct (when _ _ s1). exact D.
Qed.

Lemma consumeLoop_failed (st : status_t) (o : ConsumeOut)
    (rest : list ConsumeResult) (outp : bool) (L : Locals) (s : State) :
  consumeLoop (Failed st o :: rest) outp L s =
    ((fst (fst (onStatus st o L (snd (consumed o rest s)))),
      consumedBatch (snd (fst (onStatus st o L (snd (consumed o rest s)))))),
     snd (onStatus st o L (snd (consumed o rest s)))).
Proof.
  cbn [consumeLoop]. unfold bind, consumed, modify, ret. cbn [snd].
  destruct (onStatus st o L _) as [[st' L'] s']. reflexivity.
Qed.

Lemma consumeLoop_status (answers : list ConsumeResult) (outp : bool)
    (L : Locals) (s : State) :
  receiverObj L = true \/ referent (handler s) = true ->
  fst (fst (consumeLoop answers outp L s)) = OK \/
  In (fst (fst (consumeLoop answers outp L s))) (failedStatuses answers).
Proof.
  revert L s; induction answers as [|r answers IH]; intros L s Hr.
  - left. cbn [consumeLoop]. unfold bind, gets, ret.
    pose proof (onWouldBlock_OK (attached L)
                  (snd (notifyMotionInfo (untouched s) s)) eq_refl) as H.
    rewrite <- (onStatus_WOULD_BLOCK (untouched s) L s Hr) in H.
    destruct (onStatus WOULD_BLOCK (untouched s) L s) as [[st L'] s']. exact H.
  - destruct r as [sq ev o|st o].
    + rewrite consumeLoop_event. cbn [failedStatuses].
      set (s0 := snd (consumed o answers s)).
      assert (Hr0 : receiverObj L = true \/ referent (handler s0) = true) by exact Hr.
      rewrite (onEvent_attached outp sq ev o L s0 Hr0).
      pose proof (eventBody_flow outp sq ev (attached L)
                    (snd (notifyMotionInfo o s0)) eq_refl) as F.
      destruct (eventBody outp sq ev (attached L) (snd (notifyMotionInfo o s0)))
        as [[st L'|L'] s2]; cbn [fst] in *.
      * left. exact F.
      * apply IH. left. exact F.
    + rewrite consumeLoop_failed. cbn [failedStatuses fst].
      set (s0 := snd (consumed o answers s)).
      assert (Hr0 : receiverObj L = true \/ referent (handler s0) = true) by exact Hr.
      destruct (onStatus_status st o L s0 Hr0) as [H|H];
        [left; exact H|right; left; symmetry; exact H].
Qed.

(** X7: the status [consumeEvents] returns is [DEAD_OBJECT] when the
    receiver object has been finalized, and otherwise either [OK] or one of
    the statuses the transport gave to [consume].  In particular a failure
    of [sendFinishedSignal] during the call, whether in the auto-finish of a
    focus event or in that of a skipped event, never shows in the status. *)
Theorem consumeEvents_status (cb : bool) (ft : Z) (outp : bool) (s : State) :
  let st := fst (fst (consumeEvents cb ft outp s)) in
  (referent (handler s) = false -> st = DEAD_OBJECT) /\
  (referent (handler s) = true ->
   st = OK \/ In st (failedStatuses (inbound (mInputConsumer s)))).
Proof.
  cbv zeta. split.
  - intros H. unfold consumeEvents, bind, when, gets, modify, ret.
    destruct cb; cbn [set_pending mInputConsumer];
      (rewrite consumeLoop_finalized; [reflexivity|reflexivity|exact H]).
  - intros H. unfold consumeEvents, bind, when, gets, modify, ret.
    destruct cb; cbn [set_pending mInputConsumer];
      apply consumeLoop_status; right; exact H.
Qed.

Lemma consumeEvents_status_witness :
  let s := fresh (channel [Consumed 8 (FocusEvent true false) plain]
                    (fun _ => DEAD_OBJECT)) quietHandler in
  nextSend s = DEAD_OBJECT /\
  fst (fst (consumeEvents false (-1) false s)) = OK.
Proof.
  cbv zeta. split; [reflexivity|].
  destruct (consumeEvents_status false (-1) false
              (fresh (channel [Consumed 8 (FocusEvent true false) plain]
                        (fun _ => DEAD_OBJECT)) quietHandler)) as [_ H].
  destruct (H eq_refl) as [E|[]]. exact E.
Defined.

(** ** What consumeEvents never does *)

Lemma noThrow_emit (n m : nat) (e : Effect) (s : State) :
  negb (isThrow e) && negb (isRemoveFd e) = true ->
  count isThrow (trace s) = n /\ count isRemoveFd (trace s) = m ->
  count isThrow (trace (emit e s)) = n /\ count isRemoveFd (trace (emit e s)) = m.
Proof.
  intros He [H1 H2]. apply andb_prop in He as [E1 E2].
  apply negb_true_iff in E1, E2.
  simpl. rewrite !count_app. simpl. rewrite E1, E2. lia.
Qed.

(** X17: the code of [consumeEvents] itself never throws a
    [RuntimeException] and never takes the descriptor out of the [Looper].
    When the Java handler makes no call back into the receiver from inside
    [dispatchInputEvent], the trace the call leaves holds no further
    [jniThrowRuntimeException] and no further [removeFd], whatever the
    transport answers and whichever callbacks fail.  (A handler that does
    call back enters through [nativeFinishInputEvent], which throws on a
    hard error.) *)
Theorem consumeEvents_never_throws_or_deregisters (cb : bool) (ft : Z)
    (outp : bool) (s : State) :
  (forall sq, finishes (onDispatchInputEvent (handler s) sq) = []) ->
  let s' := snd (consumeEvents cb ft outp s) in
  count isThrow (trace s') = count isThrow (trace s) /\
  count isRemoveFd (trace s') = count isRemoveFd (trace s).
Proof.
  intros Hh. cbv zeta.
  apply (keeps_consumeEvents
           (fun x => (forall sq, finishes (onDispatchInputEvent (handler x) sq) = []) /\
                     count isThrow (trace x) = count isThrow (trace s) /\
                     count isRemoveFd (trace x) = count isRemoveFd (trace s))
           (fun e => negb (isThrow e) && negb (isRemoveFd e)));
    try (intros; assumption); try (intros; reflexivity).
  - intros e x He [Hx Hc]. split; [exact Hx|]. apply noThrow_emit; assumption.
  - intros sq x [Hx Hc]. rewrite (Hx sq). split; assumption.
  - split; [exact Hh|]. split; reflexivity.
Qed.

Lemma consumeEvents_never_throws_or_deregisters_witness :
  let s := fresh (channel [Consumed 7 KeyEvent plain; Failed NO_MEMORY plain]
                    (fun _ => NO_MEMORY)) throwingHandler in
  let s' := snd (consumeEvents false (-1) false s) in
  sends (trace s') = [mkFinish 7 false] /\
  count isThrow (trace s') = 0%nat /\
  count isRemoveFd (trace s') = 0%nat.
Proof.
  cbv zeta. split; [reflexivity|].
  apply (consumeEvents_never_throws_or_deregisters false (-1) false
           (fresh (channel [Consumed 7 KeyEvent plain; Failed NO_MEMORY plain]
                     (fun _ => NO_MEMORY)) throwingHandler)).
  intros sq. reflexivity.
Defined.

(** ** Skip-state *)

Lemma sends_app (t1 t2 : list Effect) : sends (t1 ++ t2) = sends t1 ++ sends t2.
Proof.
  induction t1 as [|e t1 IH]; simpl; [reflexivity|].
  destruct e; simpl; congruence.
Qed.

Lemma skipped_iteration (o : ConsumeOut) (rest : list ConsumeResult) (sq : Z)
    (s : State) :
  let s' := snd (sendFinishedSignal sq false
                   (snd (notifyMotionInfo o (snd (consumed o rest s))))) in
  sends (trace s') = sends (trace s) ++ [mkFinish sq false] /\
  count isDispatch (trace s') = count isDispatch (trace s) /\
  count isFocus (trace s') = count isFocus (trace s) /\
  count isBatchPending (trace s') = count isBatchPending (trace s) /\
  mFinishQueue s' = mFinishQueue s /\
  mFdEvents s' = mFdEvents s.
Proof.
  cbv zeta. set (s0 := snd (consumed o rest s)).
  destruct (notifyMotionInfo_frame o s0) as (_ & _ & Hq & Hf & _ & _ & Ht).
  set (s1 := snd (notifyMotionInfo o s0)) in *.
  destruct (sendFinishedSignal_eq sq false s1) as (_ & Ht' & Hq' & Hf' & _).
  rewrite Ht', Hq', Hf', Hq, Hf, sends_app, !count_app. simpl.
  change (trace s) with (trace s0).
  destruct Ht as [Ht|Ht]; rewrite Ht; rewrite ?sends_app, ?count_app; simpl;
    rewrite ?app_nil_r, ?Nat.add_0_r; repeat split; reflexivity.
Qed.

(** X8: skip-state lasts to the end of the call and drains the transport.
    Once a dispatch has failed, every further decoded event of the same
    [consumeEvents] call, of whatever kind, is handed to [sendFinishedSignal]
    with [handled = false], in the order decoded; no [dispatchInputEvent],
    [onFocusEvent] or [onBatchedInputEventPending] is invoked; nothing is
    queued and the interest mask is not touched, whatever the transport
    answers to the sends; and the call returns [OK] when the transport has
    no more to give. *)
Theorem skip_state_drains (answers : list ConsumeResult) (outp : bool)
    (L : Locals) (s : State) :
  skipCallbacks L = true ->
  receiverObj L = true \/ referent (handler s) = true ->
  forallb isConsumed answers = true ->
  let r := consumeLoop answers outp L s in
  fst (fst r) = OK /\
  sends (trace (snd r)) = sends (trace s) ++ unhandled answers /\
  count isDispatch (trace (snd r)) = count isDispatch (trace s) /\
  count isFocus (trace (snd r)) = count isFocus (trace s) /\
  count isBatchPending (trace (snd r)) = count isBatchPending (trace s) /\
  mFinishQueue (snd r) = mFinishQueue s /\
  mFdEvents (snd r) = mFdEvents s.
Proof.
  revert L s; induction answers as [|a answers IH]; intros L s Hk Hr Hall; cbv zeta.
  - assert (E : consumeLoop [] outp L s = ((OK, consumedBatch L), s)).
    { cbn [consumeLoop]. unfold bind, gets.
      rewrite (onStatus_WOULD_BLOCK (untouched s) L s Hr).
      rewrite (notifyMotionInfo_quiet (untouched s) s (or_introl eq_refl)). cbn [snd].
      rewrite (onWouldBlock_silent (attached L) s (or_introl Hk)). reflexivity. }
    rewrite E. cbn [fst snd unhandled]. rewrite app_nil_r. repeat split; reflexivity.
  - cbn [forallb] in Hall. apply andb_prop in Hall as [Ha Hall].
    destruct a as [sq ev o|st o]; [|discriminate Ha].
    rewrite consumeLoop_event.
    assert (Hr0 : receiverObj L = true \/
                  referent (handler (snd (consumed o answers s))) = true) by exact Hr.
    rewrite (onEvent_skipped outp sq ev o L _ Hk Hr0).
    destruct (skipped_iteration o answers sq s) as (H1 & H2 & H3 & H4 & H5 & H6).
    set (s2 := snd (sendFinishedSignal sq false _)) in *.
    destruct (IH (attached L) s2 Hk (or_introl eq_refl) Hall)
      as (I0 & I1 & I2 & I3 & I4 & I5 & I6).
    rewrite I1, I2, I3, I4, I5, I6, H1, H2, H3, H4, H5, H6.
    cbn [unhandled]. rewrite <- app_assoc. repeat split; try reflexivity. exact I0.
Qed.

Lemma skip_state_drains_witness :
  let answers := [Consumed 2 (FocusEvent true false) plain;
                  Consumed 3 (MotionEvent 2) plain] in
  let s := fresh (channel answers (fun _ => WOULD_BLOCK)) quietHandler in
  let r := consumeLoop answers false (mkLocals true true false) s in
  fst (fst r) = OK /\
  sends (trace (snd r)) = [mkFinish 2 false; mkFinish 3 false] /\
  mFinishQueue (snd r) = [].
Proof.
  cbv zeta.
  destruct (skip_state_drains
              [Consumed 2 (FocusEvent true false) plain; Consumed 3 (MotionEvent 2) plain]
              false (mkLocals true true false)
              (fresh (channel [Consumed 2 (FocusEvent true false) plain;
                               Consumed 3 (MotionEvent 2) plain]
                        (fun _ => WOULD_BLOCK)) quietHandler)
              eq_refl (or_introl eq_refl) eq_refl)
    as (H1 & H2 & _ & _ & _ & H6 & _).
  split; [exact H1|]. split; [exact H2|exact H6].
Defined.

(** ** The outcome of a dispatch *)

Lemma reenter_exception (fs : list Finish) (s : State) :
  exceptionPending (snd (reenter fs s)) = exceptionPending s /\
  handler (snd (reenter fs s)) = handler s.
Proof.
  revert s; induction fs as [|f fs IH]; intros s; [split; reflexivity|].
  cbn [reenter]. unfold bind.
  assert (F : exceptionPending
                (snd (fromCallback (nativeFinishInputEvent (seq f) (handled f)) s))
                = exceptionPending s /\
              handler (snd (fromCallback (nativeFinishInputEvent (seq f) (handled f)) s))
                = handler s).
  { unfold fromCallback, nativeFinishInputEvent, ExceptionCheck, bind, gets, modify.
    destruct (finishInputEvent_frame (to_uint32 (seq f)) (handled f) s) as (_ & Hh & _).
    destruct (finishInputEvent (to_uint32 (seq f)) (handled f) s) as [st s1].
    cbn [snd] in Hh.
    destruct (nonzero st && neq st DEAD_OBJECT);
      unfold when, jniThrowRuntimeException, raise, bind, modify, ret;
      cbn; split; (reflexivity || exact Hh). }
  destruct (fromCallback _ s) as [[] s1]. cbn [snd] in F. cbv beta iota.
  destruct (IH s1) as [I1 I2]. destruct F as [F1 F2].
  rewrite I1, I2. split; assumption.
Qed.

Lemma callDispatchInputEvent_exception (sq : Z) (ev : InputEvent) (s : State) :
  exceptionPending (snd (callDispatchInputEvent sq ev s))
    = exceptionPending s || throws (onDispatchInputEvent (handler s) sq).
Proof.
  unfold callDispatchInputEvent, bind, modify, gets, raise. cbn [handler emit].
  pose proof (reenter_exception (finishes (onDispatchInputEvent (handler s) sq))
                (emit (DispatchInputEvent sq ev) s)) as [He _].
  revert He. destruct (reenter _ _) as [[] s1]. cbn. intros He. rewrite He. reflexivity.
Qed.

Lemma deliver_eq (sq : Z) (ev : InputEvent) (obj : bool) (L : Locals) (s : State) :
  let skipped := mkLocals true (receiverObj L) (consumedBatch L) in
  let s1 := snd (callDispatchInputEvent sq ev s) in
  deliver sq ev obj L s =
    if obj then (if exceptionPending s1 then skipped else L, s1)
    else (skipped, s).
Proof.
  cbv zeta. unfold deliver. destruct obj; [|reflexivity].
  unfold bind, ExceptionCheck, gets, ret.
  destruct (callDispatchInputEvent sq ev s) as [[] s1]. reflexivity.
Qed.

(** X9: how the dispatch of a key or motion event ends, outside skip-state
    and with the receiver in hand.  Skip-state is entered exactly when no
    event object could be obtained, or an exception is pending after
    [dispatchInputEvent] (thrown by it, or left pending before it, since
    [ExceptionCheck] does not tell the two apart).  In that case the event
    itself is handed to [sendFinishedSignal] with [handled = false] before
    the next [consume]; otherwise [consumeEvents] sends nothing for it and
    the acknowledgement is left to the handler. *)
Theorem dispatch_outcome (outp : bool) (sq : Z) (ev : InputEvent) (L : Locals)
    (s : State) :
  keyOrMotion ev = true -> skipCallbacks L = false -> receiverObj L = true ->
  let reply := onDispatchInputEvent (handler s) sq in
  let s1 := snd (callDispatchInputEvent sq ev s) in
  let r := eventBody outp sq ev L s in
  (exists L', fst r = Continue L' /\
     skipCallbacks L' =
       negb (eventObj (handler s) sq) || exceptionPending s || throws reply) /\
  (eventObj (handler s) sq = false ->
     snd r = snd (sendFinishedSignal sq false s)) /\
  (eventObj (handler s) sq = true ->
     exceptionPending s || throws reply = true ->
     snd r = snd (sendFinishedSignal sq false s1)) /\
  (eventObj (handler s) sq = true ->
     exceptionPending s || throws reply = false ->
     snd r = s1).
Proof.
  intros Hev Hk Hr. cbv zeta.
  pose proof (callDispatchInputEvent_exception sq ev s) as Hx.
  assert (E : exists L0, skipCallbacks L0 = false /\
            eventBody outp sq ev L s =
              (x <- deliver sq ev (eventObj (handler s) sq) L0 ;;
               when (skipCallbacks x) (sendFinishedSignal sq false ;;; ret tt) ;;;
               ret (Continue x)) s).
  { unfold eventBody, dispatch, resolveReceiver. rewrite Hk, Hr. cbn [negb].
    destruct ev as [|action| |]; try discriminate Hev.
    - exists L. split; [exact Hk|]. unfold bind, ret, gets.
      destruct (deliver _ _ _ _ _). reflexivity.
    - exists (if nonzero (Z.land action AMOTION_EVENT_ACTION_MOVE) && outp
              then mkLocals (skipCallbacks L) (receiverObj L) true else L).
      split; [destruct (_ && _); exact Hk|].
      unfold bind, ret, gets. destruct (deliver _ _ _ _ _). reflexivity. }
  destruct E as (L0 & Hk0 & ->). unfold bind, ret, when. rewrite deliver_eq. cbv zeta.
  rewrite Hx.
  destruct (eventObj (handler s) sq); cbn [negb orb].
  - destruct (exceptionPending s || throws (onDispatchInputEvent (handler s) sq)) eqn:Ex.
    + cbn [skipCallbacks].
      destruct (sendFinishedSignal sq false _) as [st s2].
      split; [eexists; split; reflexivity|].
      split; [discriminate|]. split; [reflexivity|discriminate].
    + rewrite Hk0.
      split; [exists L0; split; [reflexivity|exact Hk0]|].
      split; [discriminate|]. split; [discriminate|reflexivity].
  - cbn [skipCallbacks].
    destruct (sendFinishedSignal sq false s) as [st s2].
    split; [eexists; split; reflexivity|].
    split; [reflexivity|]. split; discriminate.
Qed.

Lemma dispatch_outcome_witness :
  let s := fresh (channel [] neverBlocked) throwingHandler in
  let r := eventBody false 7 KeyEvent (mkLocals false true false) s in
  (exists L', fst r = Continue L' /\ skipCallbacks L' = true) /\
  sends (trace (snd r)) = [mkFinish 7 false].
Proof.
  cbv zeta.
  destruct (dispatch_outcome false 7 KeyEvent (mkLocals false true false)
              (fresh (channel [] neverBlocked) throwingHandler)
              eq_refl eq_refl eq_refl) as (H1 & _ & H3 & _).
  split; [exact H1|]. rewrite (H3 eq_refl eq_refl). reflexivity.
Defined.

(** ** The batch notification, once per call at most *)

Lemma resolveReceiver_state (L : Locals) (s : State) : snd (resolveReceiver L s) = s.
Proof.
  unfold resolveReceiver, bind, gets, ret.
  destruct (receiverObj L); [reflexivity|]. destruct (referent (handler s)); reflexivity.
Qed.

Lemma batchView_emit (n : nat) (b : bool) (e : Effect) (s : State) :
  negb (isBatchPending e) = true ->
  count isBatchPending (trace s) = n /\ mBatchedInputEventPending s = b ->
  count isBatchPending (trace (emit e s)) = n /\
  mBatchedInputEventPending (emit e s) = b.
Proof.
  intros He [H1 H2]. apply negb_true_iff in He.
  simpl. rewrite count_app. simpl. rewrite He. split; [lia|exact H2].
Qed.

(** An iteration that decodes an event neither notifies a pending batch nor
    writes the pending flag. *)
Lemma onEvent_batch (outp : bool) (sq : Z) (ev : InputEvent) (o : ConsumeOut)
    (L : Locals) (s : State) :
  count isBatchPending (trace (snd (onEvent outp sq ev o L s)))
    = count isBatchPending (trace s) /\
  mBatchedInputEventPending (snd (onEvent outp sq ev o L s))
    = mBatchedInputEventPending s.
Proof.
  assert (E : forall e x, negb (isBatchPending e) = true ->
            count isBatchPending (trace x) = count isBatchPending (trace s) /\
            mBatchedInputEventPending x = mBatchedInputEventPending s ->
            count isBatchPending (trace (emit e x)) = count isBatchPending (trace s) /\
            mBatchedInputEventPending (emit e x) = mBatchedInputEventPending s)
    by (intros e x; apply batchView_emit).
  apply (keeps_onEvent
           (fun x => count isBatchPending (trace x) = count isBatchPending (trace s) /\
                     mBatchedInputEventPending x = mBatchedInputEventPending s)
           (fun e => negb (isBatchPending e)));
    try exact E; try (intros; assumption); try (intros; reflexivity).
  - intros sq0 x Hx.
    apply (keeps_reenter
             (fun x => count isBatchPending (trace x) = count isBatchPending (trace s) /\
                       mBatchedInputEventPending x = mBatchedInputEventPending s)
             (fun e => negb (isBatchPending e)));
      try exact E; try (intros; assumption); try (intros; reflexivity).
  - split; reflexivity.
Qed.

Lemma preamble_batch (o : ConsumeOut) (L : Locals) (s : State) :
  count isBatchPending (trace (snd (preamble o L s)))
    = count isBatchPending (trace s) /\
  mBatchedInputEventPending (snd (preamble o L s)) = mBatchedInputEventPending s.
Proof.
  apply (keeps_preamble
           (fun x => count isBatchPending (trace x) = count isBatchPending (trace s) /\
                     mBatchedInputEventPending x = mBatchedInputEventPending s)
           (fun e => negb (isBatchPending e)));
    try (intros; assumption); try (intros; reflexivity).
  - intros e x. apply batchView_emit.
  - split; reflexivity.
Qed.

Lemma onWouldBlock_batch (L : Locals) (s : State) :
  let s' := snd (onWouldBlock L s) in
  (count isBatchPending (trace s') <= S (count isBatchPending (trace s)))%nat /\
  (mBatchedInputEventPending s = true -> s' = s).
Proof.
  cbv zeta. unfold onWouldBlock, bind, gets.
  destruct (mBatchedInputEventPending s) eqn:Hp.
  - rewrite andb_false_r. simpl. split; [lia|reflexivity].
  - split; [|discriminate].
    destruct (negb (skipCallbacks L) && negb false && pendingBatch (mInputConsumer s));
      [|simpl; lia].
    pose proof (resolveReceiver_state L s) as Hs.
    destruct (resolveReceiver L s) as [[L1|] s1]; cbn [snd] in Hs; subst s1;
      [|simpl; lia].
    unfold callOnBatchedInputEventPending, ExceptionCheck, raise, bind, gets, when, modify, ret.
    simpl.
    destruct (exceptionPending s
              || batchPendingThrows (handler s) (pendingBatchSource (mInputConsumer s)));
      simpl; rewrite count_app; simpl; lia.
Qed.

Lemma onStatus_batch (st : status_t) (o : ConsumeOut) (L : Locals) (s : State) :
  let s' := snd (onStatus st o L s) in
  (count isBatchPending (trace s') <= S (count isBatchPending (trace s)))%nat /\
  (mBatchedInputEventPending s = true ->
     count isBatchPending (trace s') = count isBatchPending (trace s) /\
     mBatchedInputEventPending s' = true).
Proof.
  cbv zeta. unfold onStatus. unfold bind.
  destruct (preamble_batch o L s) as [Hc Hp].
  destruct (preamble o L s) as [[L1|] s1]; cbn [snd] in Hc, Hp.
  - destruct (neq st OK && neq st WOULD_BLOCK);
      [|destruct (st =? WOULD_BLOCK)];
      try (cbn [ret snd]; rewrite Hc, Hp; split; [lia|tauto]).
    destruct (onWouldBlock_batch L1 s1) as [H1 H2]. split.
    + lia.
    + intros Ht. rewrite H2 by congruence. rewrite Hc, Hp. tauto.
  - cbn [ret snd]. rewrite Hc, Hp. split; [lia|tauto].
Qed.

Lemma consumeLoop_batch (answers : list ConsumeResult) (outp : bool)
    (L : Locals) (s : State) :
  let s' := snd (consumeLoop answers outp L s) in
  (count isBatchPending (trace s') <= S (count isBatchPending (trace s)))%nat /\
  (mBatchedInputEventPending s = true ->
     count isBatchPending (trace s') = count isBatchPending (trace s) /\
     mBatchedInputEventPending s' = true).
Proof.
  revert L s; induction answers as [|r answers IH]; intros L s; cbv zeta.
  - rewrite consumeLoop_nil. apply onStatus_batch.
  - destruct r as [sq ev o|st o].
    + rewrite consumeLoop_event.
      destruct (onEvent_batch outp sq ev o L (snd (consumed o answers s))) as [Hc Hp].
      change (trace (snd (consumed o answers s))) with (trace s) in Hc.
      change (mBatchedInputEventPending (snd (consumed o answers s)))
        with (mBatchedInputEventPending s) in Hp.
      destruct (onEvent outp sq ev o L (snd (consumed o answers s))) as [[st L'|L'] s1];
        cbn [snd] in *.
      * rewrite Hc, Hp. split; [lia|tauto].
      * specialize (IH L' s1). cbv zeta in IH. rewrite Hc, Hp in IH. exact IH.
    + rewrite consumeLoop_failed. cbn [snd].
      exact (onStatus_batch st o L (snd (consumed o answers s))).
Qed.

(** X11: a call of [consumeEvents] invokes [onBatchedInputEventPending] at
    most once, whatever the transport answers and whatever the handler
    does.  A call with [consumeBatches = false] that finds the pending flag
    set invokes it not at all and leaves the flag set: the notification is
    not repeated until a batch consumption has cleared the flag. *)
Theorem batch_notified_at_most_once (cb : bool) (ft : Z) (outp : bool) (s : State) :
  let s' := snd (consumeEvents cb ft outp s) in
  (count isBatchPending (trace s') <= S (count isBatchPending (trace s)))%nat /\
  (cb = false -> mBatchedInputEventPending s = true ->
     count isBatchPending (trace s') = count isBatchPending (trace s) /\
     mBatchedInputEventPending s' = true).
Proof.
  cbv zeta. unfold consumeEvents, bind, when, gets, modify, ret.
  destruct cb; cbn [set_pending mInputConsumer].
  - split; [|discriminate].
    apply (consumeLoop_batch (inbound (mInputConsumer s)) outp
             (mkLocals false false false) (set_pending false s)).
  - split; [apply consumeLoop_batch|]. intros _. apply consumeLoop_batch.
Qed.

Lemma batch_notified_at_most_once_witness :
  let s := set_pending true
             (fresh (channel [Failed WOULD_BLOCK (mkOut (-1) (-1) false true 9)]
                       neverBlocked) quietHandler) in
  let s' := snd (consumeEvents false (-1) false s) in
  count isBatchPending (trace s') = 0%nat /\
  mBatchedInputEventPending s' = true.
Proof.
  cbv zeta.
  apply (batch_notified_at_most_once false (-1) false
           (set_pending true
              (fresh (channel [Failed WOULD_BLOCK (mkOut (-1) (-1) false true 9)]
                        neverBlocked) quietHandler))); reflexivity.
Defined.

(** ** The batch notification, over a whole call *)






(** ** outConsumedBatch *)

Lemma resolveReceiver_consumedBatch (L : Locals) (s : State) :
  match fst (resolveReceiver L s) with
  | Some L1 => consumedBatch L1 = consumedBatch L
  | None => True
  end.
Proof.
  unfold resolveReceiver, bind, gets, ret.
  destruct (receiverObj L); [reflexivity|].
  destruct (referent (handler s)); [reflexivity|exact I].
Qed.

Lemma preamble_consumedBatch (o : ConsumeOut) (L : Locals) (s : State) :
  match fst (preamble o L s) with
  | Some L1 => consumedBatch L1 = consumedBatch L
  | None => True
  end.
Proof.
  unfold preamble, bind. pose proof (resolveReceiver_consumedBatch L s) as H.
  destruct (resolveReceiver L s) as [[L1|] s1]; cbn [fst] in *; [|exact I].
  destruct (notifyMotionInfo o s1). exact H.
Qed.

Lemma deliver_consumedBatch (sq : Z) (ev : InputEvent) (obj : bool) (L : Locals) (s : State) :
  consumedBatch (fst (deliver sq ev obj L s)) = consumedBatch L.
Proof.
  rewrite deliver_eq. cbv zeta. destruct obj; [|reflexivity].
  destruct (exceptionPending _); reflexivity.
Qed.

Lemma onWouldBlock_consumedBatch (L : Locals) (s : State) :
  consumedBatch (snd (fst (onWouldBlock L s))) = consumedBatch L.
Proof.
  unfold onWouldBlock, bind, gets.
  destruct (_ && _); [|reflexivity].
  pose proof (resolveReceiver_consumedBatch L s) as H.
  destruct (resolveReceiver L s) as [[L1|] s1]; cbn [fst] in *; [|reflexivity].
  unfold modify, callOnBatchedInputEventPending, ExceptionCheck, bind, gets, raise, when, ret.
  simpl. destruct (exceptionPending s1 || _); exact H.
Qed.

Lemma onStatus_consumedBatch (st : status_t) (o : ConsumeOut) (L : Locals) (s : State) :
  consumedBatch (snd (fst (onStatus st o L s))) = consumedBatch L.
Proof.
  unfold onStatus, bind. pose proof (preamble_consumedBatch o L s) as H.
  destruct (preamble o L s) as [[L1|] s1]; cbn [fst] in *; [|reflexivity].
  destruct (neq st OK && neq st WOULD_BLOCK); [exact H|].
  destruct (st =? WOULD_BLOCK); [|exact H].
  rewrite onWouldBlock_consumedBatch. exact H.
Qed.

Lemma eventBody_consumedBatch (outp : bool) (sq : Z) (ev : InputEvent) (o : ConsumeOut)
    (L : Locals) (s : State) :
  match fst (eventBody outp sq ev L s) with
  | Return _ L' | Continue L' =>
      consumedBatch L' = true ->
      consumedBatch L = true \/ (outp = true /\ movingMotion (Consumed sq ev o) = true)
  end.
Proof.
  assert (D : match fst (dispatch outp sq ev L s) with
              | Return _ L' | Continue L' =>
                  consumedBatch L' = true ->
                  consumedBatch L = true \/
                  (outp = true /\ movingMotion (Consumed sq ev o) = true)
              end).
  { unfold dispatch. destruct (skipCallbacks L); cbn [negb]; [left; assumption|].
    unfold bind at 1. pose proof (resolveReceiver_consumedBatch L s) as H.
    destruct (resolveReceiver L s) as [[L1|] s1]; cbn [fst] in *; [|left; assumption].
    destruct ev as [|action|hf tm|ty]; unfold bind, ret, gets.
    - pose proof (deliver_consumedBatch sq KeyEvent (eventObj (handler s1) sq) L1 s1) as HD.
      destruct (deliver _ _ _ _ _) as [L2 s2]. cbn [fst] in *.
      intros E. left. congruence.
    - match goal with |- context [deliver ?a ?b ?c ?d ?e] =>
        pose proof (deliver_consumedBatch a b c d e) as HD;
        destruct (deliver a b c d e) as [L2 s2] end.
      cbn [fst movingMotion] in *. intros E. rewrite HD in E.
      destruct (nonzero (Z.land action AMOTION_EVENT_ACTION_MOVE)); cbn [andb] in E.
      + destruct outp; cbn in E; [right; split; reflexivity|left; congruence].
      + left. congruence.
    - destruct (callOnFocusEvent hf tm s1) as [[] s2].
      destruct (finishInputEvent sq true s2). cbn [fst]. intros E. left. congruence.
    - pose proof (deliver_consumedBatch sq (OtherEvent ty) false L1 s1) as HD.
      destruct (deliver _ _ _ _ _) as [L2 s2]. cbn [fst] in *.
      intros E. left. congruence. }
  unfold eventBody. unfold bind at 1.
  destruct (dispatch outp sq ev L s) as [[st L'|L'] s1]; cbn [fst] in D.
  - exact D.
  - unfold bind, ret. destruct (when _ _ s1). exact D.
Qed.

Lemma onEvent_consumedBatch (outp : bool) (sq : Z) (ev : InputEvent) (o : ConsumeOut)
    (L : Locals) (s : State) :
  match fst (onEvent outp sq ev o L s) with
  | Return _ L' | Continue L' =>
      consumedBatch L' = true ->
      consumedBatch L = true \/ (outp = true /\ movingMotion (Consumed sq ev o) = true)
  end.
Proof.
  unfold onEvent. unfold bind at 1. pose proof (preamble_consumedBatch o L s) as H.
  destruct (preamble o L s) as [[L1|] s1]; cbn [fst] in *; [|left; assumption].
  pose proof (eventBody_consumedBatch outp sq ev o L1 s1) as HB.
  destruct (eventBody outp sq ev L1 s1) as [[st L'|L'] s2]; cbn [fst] in *;
    intros E; destruct (HB E) as [HB'|HB']; try (right; exact HB'); left; congruence.
Qed.

Lemma consumeLoop_consumedBatch (answers : list ConsumeResult) (outp : bool)
    (L : Locals) (s : State) :
  snd (fst (consumeLoop answers outp L s)) = true ->
  consumedBatch L = true \/ (outp = true /\ existsb movingMotion answers = true).
Proof.
  revert L s; induction answers as [|r answers IH]; intros L s.
  - cbn [consumeLoop]. unfold bind, gets, ret.
    pose proof (onStatus_consumedBatch WOULD_BLOCK (untouched s) L s) as H.
    destruct (onStatus WOULD_BLOCK (untouched s) L s) as [[st L'] s']. cbn [fst snd] in *.
    intros E. left. congruence.
  - destruct r as [sq ev o|st o].
    + rewrite consumeLoop_event.
      pose proof (onEvent_consumedBatch outp sq ev o L (snd (consumed o answers s))) as H.
      cbn [existsb].
      destruct (onEvent outp sq ev o L (snd (consumed o answers s))) as [[st L'|L'] s1];
        cbn [fst snd] in *.
      * intros E. destruct (H E) as [H'|[H1 H2]]; [left; exact H'|].
        right. rewrite H2. split; [exact H1|reflexivity].
      * intros E. destruct (IH L' s1 E) as [H'|[H1 H2]].
        -- destruct (H H') as [H''|[H3 H4]]; [left; exact H''|].
           right. rewrite H4. split; [exact H3|reflexivity].
        -- right. rewrite H2, orb_true_r. split; [exact H1|reflexivity].
    + rewrite consumeLoop_failed. cbn [fst snd].
      rewrite onStatus_consumedBatch. intros E. left. exact E.
Qed.

(** X10: the value stored through [outConsumedBatch] is [true] only if the
    pointer is non-null and one of the pending answers is a motion event
    whose action word has the bit tested at line 334
    ([action & AMOTION_EVENT_ACTION_MOVE]).  With a null pointer, as in
    [handleEvent], or without such an event, it is [false]. *)
Theorem consumedBatch_sound (cb : bool) (ft : Z) (outp : bool) (s : State) :
  snd (fst (consumeEvents cb ft outp s)) = true ->
  outp = true /\ existsb movingMotion (inbound (mInputConsumer s)) = true.
Proof.
  unfold consumeEvents, bind, when, gets, modify, ret.
  destruct cb; cbn [set_pending mInputConsumer]; intros E;
    apply consumeLoop_consumedBatch in E as [E|E]; (discriminate E || exact E).
Qed.

Lemma consumedBatch_sound_witness :
  let s := fresh (channel [Consumed 1 (MotionEvent 2) plain] neverBlocked) quietHandler in
  snd (fst (consumeEvents true 0 true s)) = true /\
  existsb movingMotion (inbound (mInputConsumer s)) = true.
Proof.
  cbv zeta. split; [reflexivity|].
  apply (consumedBatch_sound true 0 true
           (fresh (channel [Consumed 1 (MotionEvent 2) plain] neverBlocked) quietHandler)
           eq_refl).
Defined.

(** ** The JNI entry points *)

Lemma setFdEvents_view (e : Z) (s : State) :
  sends (trace (snd (setFdEvents e s))) = sends (trace s) /\
  count isThrow (trace (snd (setFdEvents e s))) = count isThrow (trace s) /\
  exceptionPending (snd (setFdEvents e s)) = exceptionPending s.
Proof.
  unfold setFdEvents, addFd, removeFd, bind, gets, modify, ret.
  destruct (neq (mFdEvents s) e); cbn; [|auto].
  destruct (nonzero e); cbn; rewrite sends_app, count_app; cbn;
    rewrite app_nil_r, Nat.add_0_r; auto.
Qed.

Lemma finishInputEvent_view (sq : Z) (h : bool) (s : State) :
  let s' := snd (finishInputEvent sq h s) in
  fst (finishInputEvent sq h s)
    = (if nextSend s =? WOULD_BLOCK then OK else nextSend s) /\
  sends (trace s') = sends (trace s) ++ [mkFinish sq h] /\
  count isThrow (trace s') = count isThrow (trace s) /\
  exceptionPending s' = exceptionPending s.
Proof.
  cbv zeta.
  destruct (sendFinishedSignal_eq sq h s) as (_ & Ht & _).
  pose proof (send_exception sq h s) as He.
  assert (V : sends (trace (snd (sendFinishedSignal sq h s)))
                = sends (trace s) ++ [mkFinish sq h] /\
              count isThrow (trace (snd (sendFinishedSignal sq h s)))
                = count isThrow (trace s)).
  { rewrite Ht, sends_app, count_app. cbn. rewrite Nat.add_0_r. auto. }
  destruct V as [V1 V2].
  destruct (Z.eq_dec (nextSend s) OK) as [E|E].
  - rewrite (finishInputEvent_sent sq h s E). cbn [fst snd]. rewrite E. cbn. auto.
  - destruct (Z.eq_dec (nextSend s) WOULD_BLOCK) as [E'|E'].
    + rewrite (finishInputEvent_blocked sq h s E'). cbv zeta. cbn [fst snd].
      rewrite E'. cbn [Z.eqb]. rewrite Z.eqb_refl.
      destruct (mFinishQueue s).
      * destruct (setFdEvents_view (Z.lor ALOOPER_EVENT_INPUT ALOOPER_EVENT_OUTPUT)
                    (set_queue ([] ++ [mkFinish sq h]) (snd (sendFinishedSignal sq h s))))
          as (A & B & C).
        rewrite A, B, C. cbn. auto.
      * cbn. auto.
    + rewrite (finishInputEvent_failed sq h s E E'). cbn [fst snd].
      apply Z.eqb_neq in E'. rewrite E'. auto.
Qed.

(** X13: [nativeFinishInputEvent] hands exactly one acknowledgement to the
    transport, carrying the Java [seq] as an unsigned 32-bit number.  It
    throws a [RuntimeException] exactly when the transport answers that send
    with a status other than [OK], [WOULD_BLOCK] and [DEAD_OBJECT]; on
    [DEAD_OBJECT] the acknowledgement is neither delivered nor queued and
    nothing is thrown. *)
Theorem nativeFinishInputEvent_outcome (sq : Z) (h : bool) (s : State) :
  let s' := snd (nativeFinishInputEvent sq h s) in
  let f := mkFinish (to_uint32 sq) h in
  let hard := neq (nextSend s) OK && neq (nextSend s) WOULD_BLOCK
              && neq (nextSend s) DEAD_OBJECT in
  0 <= seq f < 2 ^ 32 /\
  sends (trace s') = sends (trace s) ++ [f] /\
  count isThrow (trace s') = (count isThrow (trace s) + (if hard then 1 else 0))%nat /\
  exceptionPending s' = exceptionPending s || hard /\
  mFinishQueue s' = mFinishQueue s ++ (if nextSend s =? WOULD_BLOCK then [f] else []) /\
  delivered (trace s') = delivered (trace s) ++ (if nextSend s =? OK then [f] else []).
Proof.
  cbv zeta. split; [apply Z.mod_pos_bound; reflexivity|].
  destruct (finishInputEvent_view (to_uint32 sq) h s) as (R & S1 & T1 & E1).
  destruct (finishInputEvent_acked (to_uint32 sq) h s) as (D1 & Q1).
  unfold nativeFinishInputEvent, bind.
  destruct (finishInputEvent (to_uint32 sq) h s) as [st s1]. cbn [fst snd] in *.
  subst st. unfold neq, nonzero, OK, WOULD_BLOCK, DEAD_OBJECT in *.
  destruct (nextSend s =? -11) eqn:Ew.
  - apply Z.eqb_eq in Ew. rewrite Ew in *. cbn in *.
    rewrite S1, T1, E1, D1, Q1, Nat.add_0_r, orb_false_r. auto.
  - cbn [negb andb]. rewrite andb_true_r.
    destruct (nextSend s =? 0) eqn:Eo; cbn [negb andb when].
    + cbn. rewrite S1, T1, E1, D1, Q1, Nat.add_0_r, orb_false_r. auto.
    + destruct (nextSend s =? -32) eqn:Ed; cbn [negb when].
      * cbn. rewrite S1, T1, E1, D1, Q1, Nat.add_0_r, orb_false_r. auto.
      * unfold jniThrowRuntimeException, raise, bind, modify. cbn.
        rewrite sends_app, count_app, delivered_app. cbn.
        rewrite !app_nil_r, S1, T1, E1, D1, Q1, !app_nil_r. auto.
Qed.

(** X14: [nativeConsumeBatchedInputEvents] either hands back what
    [consumeEvents(env, true, frameTime, &consumedBatch)] left, with
    [consumedBatch] as its result, or throws one [RuntimeException] and
    answers [false].  It throws only when the receiver object was still
    reachable, the transport answered a [consume] with an error other than
    [DEAD_OBJECT], and no Java exception was pending. *)
Theorem nativeConsumeBatchedInputEvents_outcome (ft : Z) (s : State) :
  let r := consumeEvents true ft true s in
  let n := nativeConsumeBatchedInputEvents ft s in
  n = (snd (fst r), snd r) \/
  (exists st,
     In st (failedStatuses (inbound (mInputConsumer s))) /\
     st <> OK /\ st <> DEAD_OBJECT /\
     referent (handler s) = true /\
     exceptionPending (snd r) = false /\
     fst n = false /\
     trace (snd n) = trace (snd r) ++ [ThrowRuntimeException st] /\
     exceptionPending (snd n) = true).
Proof.
  cbv zeta.
  assert (St : (referent (handler s) = false /\
                fst (fst (consumeEvents true ft true s)) = DEAD_OBJECT) \/
               (referent (handler s) = true /\
                (fst (fst (consumeEvents true ft true s)) = OK \/
                 In (fst (fst (consumeEvents true ft true s)))
                    (failedStatuses (inbound (mInputConsumer s)))))).
  { destruct (referent (handler s)) eqn:H; [right|left]; (split; [reflexivity|]);
      unfold consumeEvents, bind, when, gets, modify, ret;
      cbn [set_pending mInputConsumer].
    - apply consumeLoop_status. right. exact H.
    - rewrite consumeLoop_finalized; [reflexivity|reflexivity|exact H]. }
  unfold nativeConsumeBatchedInputEvents, ExceptionCheck, bind, gets.
  destruct (consumeEvents true ft true s) as [[st cbt] s1]. cbn [fst snd] in *.
  destruct (nonzero st) eqn:Ez; cbn [andb]; [|left; reflexivity].
  destruct (neq st DEAD_OBJECT) eqn:Ed; cbn [andb]; [|left; reflexivity].
  destruct (exceptionPending s1) eqn:Ee; cbn [negb]; [left; reflexivity|].
  right. exists st.
  unfold nonzero in Ez. unfold neq in Ed.
  apply negb_true_iff in Ez, Ed. apply Z.eqb_neq in Ez, Ed.
  destruct St as [[_ E]|[R [E|I]]]; [contradiction|contradiction|].
  unfold jniThrowRuntimeException, raise, bind, modify, ret. cbn.
  rewrite Ee. repeat split; auto.
Qed.

(** X15: [nativeInit] throws exactly when the input channel or the message
    queue is missing, the channel being looked at first.  Its third
    exception is out of reach, because [initialize] answers [OK] whatever
    happens: every other call gives a receiver that holds the channel, has
    an empty finish queue and has registered its descriptor with the
    [Looper] once, for [ALOOPER_EVENT_INPUT]. *)
Theorem nativeInit_outcome (inputChannel : option InputConsumer) (messageQueue : bool)
    (h : Handler) :
  match nativeInit inputChannel messageQueue h with
  | InitThrows ChannelNotInitialized => inputChannel = None
  | InitThrows MessageQueueNotInitialized => inputChannel <> None /\ messageQueue = false
  | InitThrows (InitializeFailed _) => False
  | InitOk s =>
      inputChannel = Some (mInputConsumer s) /\ messageQueue = true /\
      handler s = h /\
      steadyState s /\
      mFinishQueue s = [] /\
      looper s = Some ALOOPER_EVENT_INPUT /\
      trace s = [AddFd (getFd (mInputConsumer s)) ALOOPER_EVENT_INPUT] /\
      exceptionPending s = false
  end.
Proof.
  destruct inputChannel as [c|]; [|reflexivity].
  destruct messageQueue; cbn; [|split; [discriminate|reflexivity]].
  pose proof (steadyState_fresh c h) as F.
  repeat split; try reflexivity; apply F.
Qed.
